(** * A generic PDDL planner driven through a subprocess

    Shallow embedding of [unified_planning/solvers/pddl_solver.py]:
    the plan parser [PDDLSolver._plan_from_file] with the two regular
    expressions it matches every line against, the process runner
    [run_command] and the orchestrator [PDDLSolver.solve].

    Text is a list of characters; a character is a code point below
    U+0100, so the development covers plan files and solver output written
    in that range. What the surroundings answer (process creation, the
    reads on the two streams, the clock, the plan file left behind) is
    given by a [world]; the clock counts in whole ticks. The loop of the
    runner is run for a bounded number of turns, and a run that needs
    more has no outcome yet. *)

From Stdlib Require Import Ascii String NArith ZArith Lia.
From Stdlib Require Strings.Byte.
From stdpp Require Import base option list gmap.

Local Open Scope char_scope.
Local Open Scope list_scope.

(** ** Characters and the character classes of [re] *)

Abbreviation text := (list ascii).

Definition str (s : string) : text := list_ascii_of_string s.

Definition code (c : ascii) : N := N_of_ascii c.

Definition in_range (lo hi : N) (c : ascii) : bool :=
  ((lo <=? code c) && (code c <=? hi))%N.

Definition NL : ascii := "010".
Definition CR : ascii := "013".

(** [\s] on [str] patterns: the characters for which [str.isspace] holds.
    Below U+0100 these are TAB..CR, FS..US, SPACE, NEL and NBSP. *)
Definition is_space (c : ascii) : bool :=
  in_range 9 13 c || in_range 28 32 c || (code c =? 133)%N || (code c =? 160)%N.

(** [\w] on [str] patterns: alphanumerics (in the Unicode sense) and the
    underscore. *)
Definition is_alnum (c : ascii) : bool :=
  in_range 48 57 c || in_range 65 90 c || in_range 97 122 c
  || (code c =? 170)%N || in_range 178 179 c || (code c =? 181)%N
  || in_range 185 186 c || in_range 188 190 c
  || in_range 192 214 c || in_range 216 246 c || in_range 248 255 c.

Definition is_word (c : ascii) : bool := is_alnum c || Ascii.eqb c "_".

(** The class [[\w?-]] of both token positions of the action pattern. *)
Definition is_token_char (c : ascii) : bool :=
  is_word c || Ascii.eqb c "?" || Ascii.eqb c "-".

(** [.] without DOTALL: anything but a newline. *)
Definition is_dot (c : ascii) : bool := negb (Ascii.eqb c NL).

(** ** A backtracking matcher for the fragment of [re] the parser uses *)

Inductive regex : Type :=
| Bol                              (* ^ *)
| Eol                              (* $ *)
| Class (p : ascii -> bool)        (* \s  [\w?-]  .  and literals *)
| Cat (r1 r2 : regex)
| Star (r : regex)                 (* greedy r* *)
| Opt (r : regex)                  (* greedy r? *)
| Group (n : nat) (r : regex).     (* capturing group number n *)

Definition Lit (c : ascii) : regex := Class (Ascii.eqb c).
Definition Plus (r : regex) : regex := Cat r (Star r).

(** The matcher is written in continuation-passing style: [exec r i s c k]
    matches [r] at offset [i], where [s] is what is left of the subject
    and [c] the groups captured so far, then hands the new offset, rest
    and groups to [k]; when [k] fails the next alternative is tried, the
    greedy one first, as the [re] engine does. A [Star] over a subject
    of n characters runs at most n iterations, each of which must consume
    something (the bodies used here never match the empty text). *)
Fixpoint star_loop {A : Type}
    (body : nat -> text -> gmap nat text ->
            (nat -> text -> gmap nat text -> option A) -> option A)
    (k : nat -> text -> gmap nat text -> option A)
    (fuel : nat) (i : nat) (s : text) (c : gmap nat text) : option A :=
  match fuel with
  | 0 => k i s c
  | S fuel' =>
      match body i s c (fun j s' c' =>
              if decide (length s' < length s)
              then star_loop body k fuel' j s' c' else None) with
      | Some x => Some x
      | None => k i s c
      end
  end.

Fixpoint exec {A : Type} (r : regex) (i : nat) (s : text) (c : gmap nat text)
    (k : nat -> text -> gmap nat text -> option A) {struct r} : option A :=
  match r with
  | Bol => if decide (i = 0) then k i s c else None
  | Eol =>
      match s with
      | [] => k i s c
      | [a] => if Ascii.eqb a NL then k i s c else None
      | _ => None
      end
  | Class p =>
      match s with
      | a :: s' => if p a then k (S i) s' c else None
      | [] => None
      end
  | Cat r1 r2 => exec r1 i s c (fun j s' c' => exec r2 j s' c' k)
  | Opt r1 =>
      match exec r1 i s c k with
      | Some x => Some x
      | None => k i s c
      end
  | Group n r1 =>
      exec r1 i s c (fun j s' c' => k j s' (<[n := take (j - i) s]> c'))
  | Star r1 => star_loop (exec r1) k (length s) i s c
  end.

(** [re.match(pattern, line)]: the pattern is tried at offset 0 only and
    need not reach the end of the subject; the result is the match
    object, here the captured groups. *)
Definition re_match (r : regex) (line : text) : option (gmap nat text) :=
  exec r 0 line ∅ (fun _ _ c => Some c).

(** [res.group(n)] of a group that took part in the match. *)
Definition group (n : nat) (res : gmap nat text) : text := default [] (res !! n).

(** ** The two patterns of [_plan_from_file] *)

Declare Scope regex_scope.
Delimit Scope regex_scope with re.
Infix "⋅" := Cat (at level 60, right associativity) : regex_scope.

Definition ws : regex := Class is_space.
Definition tok : regex := Class is_token_char.

(** The two pattern literals, as they are written in the source. *)
Definition blank_pattern : string := "^\s*(;.*)?$".
Definition action_pattern : string := "^\s*\(\s*([\w?-]+)((\s+[\w?-]+)*)\s*\)\s*$".

(** [blank_pattern] as a syntax tree. *)
Definition blank_re : regex :=
  (Bol ⋅ Star ws ⋅ Opt (Group 1 (Lit ";" ⋅ Star (Class is_dot))) ⋅ Eol)%re.

(** [action_pattern] as a syntax tree; [args_re] is its third group
    under the star. *)
Definition args_re : regex := Star (Group 3 (Plus ws ⋅ Plus tok)%re).

Definition action_re : regex :=
  (Bol ⋅ Star ws ⋅ Lit "(" ⋅ Star ws ⋅ Group 1 (Plus tok)
   ⋅ Group 2 args_re
   ⋅ Star ws ⋅ Lit ")" ⋅ Star ws ⋅ Eol)%re.

(** ** What a match is: the relational reading of a pattern

    [Matches r i s c j s' c'] says that [r] can match at offset [i] of a
    subject whose rest is [s] with groups [c], ending at offset [j] with
    rest [s'] and groups [c']. The matcher finds such a match whenever one
    exists whose continuation succeeds, and only such matches. *)

Inductive Matches : regex -> nat -> text -> gmap nat text ->
                    nat -> text -> gmap nat text -> Prop :=
| M_Bol s c : Matches Bol 0 s c 0 s c
| M_Eol_end i c : Matches Eol i [] c i [] c
| M_Eol_nl i c : Matches Eol i [NL] c i [NL] c
| M_Class p a i s c : p a = true -> Matches (Class p) i (a :: s) c (S i) s c
| M_Cat r1 r2 i s c j s' c' j2 s2 c2 :
    Matches r1 i s c j s' c' -> Matches r2 j s' c' j2 s2 c2 ->
    Matches (Cat r1 r2) i s c j2 s2 c2
| M_Opt_some r i s c j s' c' :
    Matches r i s c j s' c' -> Matches (Opt r) i s c j s' c'
| M_Opt_none r i s c : Matches (Opt r) i s c i s c
| M_Group n r i s c j s' c' :
    Matches r i s c j s' c' ->
    Matches (Group n r) i s c j s' (<[n := take (j - i) s]> c')
| M_Star_nil r i s c : Matches (Star r) i s c i s c
| M_Star_cons r i s c j s' c' j2 s2 c2 :
    Matches r i s c j s' c' -> length s' < length s ->
    Matches (Star r) j s' c' j2 s2 c2 ->
    Matches (Star r) i s c j2 s2 c2.

Definition all (p : ascii -> bool) (w : text) : Prop :=
  Forall (fun a => p a = true) w.

(** ** The shape of the lines the two patterns accept *)

Definition spaces (w : text) : Prop := all is_space w.

(** A token: a non-empty run of characters of [[\w?-]]. *)
Definition token (t : text) : Prop := t <> [] /\ all is_token_char t.

(** A parameter with the white space that precedes it. *)
Definition sep_token (st : text * text) : Prop :=
  st.1 <> [] /\ spaces st.1 /\ token st.2.

(** The text of all parameters, separators included: what group 2 of
    the action pattern holds. *)
Definition arg_text (args : list (text * text)) : text :=
  concat (map (fun st => st.1 ++ st.2) args).

(** [w1 ( w2 name sep1 p1 ... sepn pn w3 ) w4] *)
Definition action_line (l name : text) (args : list (text * text)) : Prop :=
  exists w1 w2 w3 w4,
    spaces w1 /\ spaces w2 /\ spaces w3 /\ spaces w4 /\
    token name /\ Forall sep_token args /\
    l = w1 ++ "(" :: w2 ++ name ++ arg_text args ++ w3 ++ ")" :: w4.

(** A line of white space only, or white space, a semicolon and then no
    newline except possibly as the very last character. *)
Definition blank_or_comment (l : text) : Prop :=
  spaces l \/
  exists w body tail, spaces w /\ all is_dot body /\ (tail = [] \/ tail = [NL]) /\
    l = w ++ ";" :: body ++ tail.

(** *** A line has at most one reading as an action line *)

Definition head_not (p : ascii -> bool) (x : text) : Prop :=
  match x with [] => True | a :: _ => p a = false end.

Definition last_not (p : ascii -> bool) (x : text) : Prop :=
  head_not p (reverse x).

(** ** Library functions the source calls on text *)

(** [str.split()] without arguments: the maximal runs of characters that
    are not white space, in order; [cur] is the run being read. *)
Fixpoint split_from (cur : text) (s : text) : list text :=
  match s with
  | [] => match cur with [] => [] | _ => [cur] end
  | a :: s' =>
      if is_space a
      then match cur with
           | [] => split_from [] s'
           | _ => cur :: split_from [] s'
           end
      else split_from (cur ++ [a]) s'
  end.

Definition split (s : text) : list text := split_from [] s.

(** [open(path)] reads in universal-newlines mode: CR LF and a lone CR
    both arrive as LF. *)
Fixpoint translate_newlines (s : text) : text :=
  match s with
  | [] => []
  | a :: s' =>
      if Ascii.eqb a CR
      then NL :: match s' with
                 | b :: s'' =>
                     if Ascii.eqb b NL then translate_newlines s''
                     else translate_newlines s'
                 | [] => []
                 end
      else a :: translate_newlines s'
  end.

(** Cutting after every LF, the LF kept with its line; [cur] is the
    line being read. *)
Fixpoint lines_from (cur : text) (s : text) : list text :=
  match s with
  | [] => match cur with [] => [] | _ => [cur] end
  | a :: s' =>
      if Ascii.eqb a NL then (cur ++ [NL]) :: lines_from [] s'
      else lines_from (cur ++ [a]) s'
  end.

(** [plan.readlines()] on a file with the given content. *)
Definition readlines (content : text) : list text :=
  lines_from [] (translate_newlines content).

(** [s.replace('\r\n', '\n')] *)
Fixpoint replace_crlf (s : text) : text :=
  match s with
  | [] => []
  | a :: s' =>
      match s' with
      | b :: s'' =>
          if Ascii.eqb a CR && Ascii.eqb b NL then NL :: replace_crlf s''
          else a :: replace_crlf s'
      | [] => [a]
      end
  end.

(** [os.path.join(dir, file)] for a relative [file]. *)
Definition path_join (dir file : text) : text := dir ++ "/" :: file.

(** [s in t] on text. *)
Fixpoint starts_with (s t : text) : bool :=
  match s, t with
  | [], _ => true
  | a :: s', b :: t' => Ascii.eqb a b && starts_with s' t'
  | _ :: _, [] => false
  end.

Fixpoint contains (t s : text) : bool :=
  starts_with s t || match t with [] => false | _ :: t' => contains t' s end.

(** [s.strip()] *)
Fixpoint lstrip (s : text) : text :=
  match s with
  | a :: s' => if is_space a then lstrip s' else s
  | [] => []
  end.

Definition rstrip (s : text) : text := reverse (lstrip (reverse s)).
Definition strip (s : text) : text := rstrip (lstrip s).

(** ** The planner: data, parser, runner and orchestrator *)

Section Model.
(** Actions and objects belong to the problem; [Exn] stands for the
    exceptions collaborators raise (the problem's registries, the
    constructor of an action instance, process creation, decoding, the
    sink); [LogLevel] and the three constants come from
    [unified_planning.solvers.results]. *)
Context {Action Object Exn LogLevel : Type}.
Context (TIMEOUT : Z) (INFO ERROR : LogLevel).
Context (decode : list Byte.byte -> Exn + text).

(** What a call can raise: the parser's own [UPException] with its
    message, or an exception of a collaborator passing through. *)
Inductive raised : Type :=
| UPException (msg : text)
| Foreign (e : Exn).

(** [problem.action(name)] and [problem.object(name)]: the lookups of
    the problem, which raise on a name they do not know. *)
Record Problem : Type := {
  action : text -> Exn + Action;
  object : text -> Exn + Object
}.

Inductive FNode : Type := ObjectExp (o : Object).

Record ActionInstance : Type := mkActionInstance {
  ai_action : Action;
  actual_parameters : list FNode
}.

(** [up.plan.ActionInstance(action, params)] is written elsewhere. It
    does not take whatever it is given: it asserts that the parameters
    fit the action (as many as the action declares) and raises when
    they do not. [init_raises a ps] is what the constructor raises on
    [a] and [ps], if anything. *)
Class ActionInstanceInit : Type :=
  init_raises : Action -> list FNode -> option Exn.

Context {init : ActionInstanceInit}.

Definition new_ActionInstance (a : Action) (parameters : list FNode)
    : raised + ActionInstance :=
  match init_raises a parameters with
  | Some e => inl (Foreign e)
  | None => inr (mkActionInstance a parameters)
  end.

Record Plan : Type := SequentialPlan { actions : list ActionInstance }.

Record LogMessage : Type := mkLogMessage { level : LogLevel; message : text }.

Record PlanGenerationResult : Type := mkPlanGenerationResult {
  status : Z;
  plan : option Plan;
  log_messages : list LogMessage;
  planner_name : text
}.

(** A concrete solver: its name, the name of its class, and the two
    methods every subclass supplies. *)
Record Solver : Type := {
  name : text;
  class_name : text;
  needs_requirements : bool;
  _get_cmd : text -> text -> text -> list text;
  _result_status : Problem -> option Plan -> Z
}.

(** *** [_plan_from_file] *)

Definition parse_error_message (self : Solver) : text :=
  str "Error parsing plan generated by " ++ class_name self.

(** The inner loop over [res.group(2).split()]. *)
Fixpoint parameters_of (problem : Problem) (ps : list text)
    (parameters : list FNode) : raised + list FNode :=
  match ps with
  | [] => inr parameters
  | p :: ps' =>
      match object problem p with
      | inl e => inl (Foreign e)
      | inr o => parameters_of problem ps' (parameters ++ [ObjectExp o])
      end
  end.

(** The body of the loop over the lines: [inr None] is [continue],
    [inr (Some a)] the instance appended to [actions]. *)
Definition parse_line (self : Solver) (problem : Problem) (line : text)
    : raised + option ActionInstance :=
  match re_match blank_re line with
  | Some _ => inr None
  | None =>
      match re_match action_re line with
      | Some res =>
          match action problem (group 1 res) with
          | inl e => inl (Foreign e)
          | inr a =>
              match parameters_of problem (split (group 2 res)) [] with
              | inl e => inl e
              | inr parameters =>
                  match new_ActionInstance a parameters with
                  | inl e => inl e
                  | inr instance => inr (Some instance)
                  end
              end
          end
      | None => inl (UPException (parse_error_message self))
      end
  end.

Fixpoint parse_lines (self : Solver) (problem : Problem) (lines : list text)
    (actions : list ActionInstance) : raised + list ActionInstance :=
  match lines with
  | [] => inr actions
  | line :: lines' =>
      match parse_line self problem line with
      | inl e => inl e
      | inr None => parse_lines self problem lines' actions
      | inr (Some a) => parse_lines self problem lines' (actions ++ [a])
      end
  end.

(** [content] is what the file at [plan_filename] holds. *)
Definition _plan_from_file (self : Solver) (problem : Problem) (content : text)
    : raised + Plan :=
  match parse_lines self problem (readlines content) [] with
  | inl e => inl e
  | inr actions => inr (SequentialPlan actions)
  end.

(** What the parser is expected to build from a name and its
    parameter tokens: the action looked up first, then every object in
    token order, then the instance constructed; the first of these
    steps that raises ends it. *)
Fixpoint objects_of (problem : Problem) (ps : list text) : raised + list FNode :=
  match ps with
  | [] => inr []
  | p :: ps' =>
      match object problem p with
      | inl e => inl (Foreign e)
      | inr o =>
          match objects_of problem ps' with
          | inl e => inl e
          | inr rest => inr (ObjectExp o :: rest)
          end
      end
  end.

Definition instance_of (problem : Problem) (item : text * list text)
    : raised + ActionInstance :=
  match action problem item.1 with
  | inl e => inl (Foreign e)
  | inr a =>
      match objects_of problem item.2 with
      | inl e => inl e
      | inr parameters => new_ActionInstance a parameters
      end
  end.

(** The name and the parameter names an instance stands for, given how
    actions and objects are named. *)
Definition describe (name_of : Action -> text) (object_name : Object -> text)
    (a : ActionInstance) : text * list text :=
  (name_of (ai_action a),
   map (fun e => match e with ObjectExp o => object_name o end)
       (actual_parameters a)).

(** *** [run_command] *)

(** What one turn of the [while] loop observes: for each stream the
    line [readline] gave within half a second ([None] when the wait
    timed out), what [time.time()] returns at the deadline test, and
    what [output_stream.write] raises, if anything, when the chunk of
    either stream is handed to the sink. A read that raises anything
    but the time-out of the wait (a line longer than the stream reader
    allows) is not represented. *)
Record cycle : Type := {
  stdout_read : option (list Byte.byte);
  stderr_read : option (list Byte.byte);
  now : Z;
  stdout_write_raises : option Exn;
  stderr_write_raises : option Exn
}.

(** The child as the runner sees it. It is taken to exit once it has
    closed its streams or has been killed, so that the
    [process.wait()] after the loop returns. *)
Record process : Type := {
  cycles : nat -> cycle;
  kill_raises : bool;        (* [process.kill()] raises [OSError] *)
  returncode : option Z      (* [process.returncode] once waited for *)
}.

(** The surroundings of one call: process creation, the clock when
    the runner starts, the temporary directory, and the plan file the
    solver leaves behind, if any. *)
Record world : Type := {
  spawn : list text -> Exn + process;
  start : Z;
  tempdir : text;
  plan_file : option text
}.

(** What the runner has done so far: the two lists of
    [process_output], the texts written to [output_stream], and the
    calls of [process.kill()]. *)
Record run_state : Type := mkRunState {
  process_output : list text * list text;
  written : list text;
  kills : nat
}.

Definition init_state : run_state := mkRunState ([], []) [] 0.

(** One pass of the loop over [idx]: decode, forward to the sink,
    append. [write_raises] is what the write raises, when there is a
    sink to write to. *)
Definition record_line (output_stream : bool) (idx : bool) (line : list Byte.byte)
    (write_raises : option Exn) (st : run_state) : raised + run_state :=
  match decode line with
  | inl e => inl (Foreign e)
  | inr s =>
      let output_string := replace_crlf s in
      match (if output_stream then write_raises else None) with
      | Some e => inl (Foreign e)
      | None =>
          let w := if output_stream then written st ++ [output_string]
                   else written st in
          let '(out, err) := process_output st in
          inr (mkRunState
                 (if idx then (out, err ++ [output_string])
                  else (out ++ [output_string], err))
                 w (kills st))
      end
  end.

Definition is_empty {A : Type} (l : list A) : bool :=
  match l with [] => true | _ => false end.

(** The test of line 132: both reads returned in time and both are
    empty. *)
Definition eof (cy : cycle) : bool :=
  let lines0 := default [] (stdout_read cy) in
  let lines1 := default [] (stderr_read cy) in
  let oks0 := bool_decide (is_Some (stdout_read cy)) in
  let oks1 := bool_decide (is_Some (stderr_read cy)) in
  oks0 && oks1 && (is_empty lines0 && is_empty lines1).

(** The test of line 140:
    [timeout is not None and time.time() - start >= timeout]. *)
Definition deadline (timeout : option Z) (start : Z) (cy : cycle) : bool :=
  match timeout with
  | Some t => (t <=? now cy - start)%Z
  | None => false
  end.

(** [process.kill()] inside [try: ... except OSError: pass]: the call
    is counted, and whether it raised makes no difference. *)
Definition kill (p : process) (st : run_state) : run_state :=
  let st' := mkRunState (process_output st) (written st) (S (kills st)) in
  if kill_raises p then st' else st'.

(** The [while True] loop from its [n]-th turn on. The result is
    [None] when [fuel] turns do not end it, otherwise the state
    reached and either the exception raised or [timeout_occoured]. *)
Fixpoint drain (p : process) (start : Z) (timeout : option Z)
    (output_stream : bool) (fuel n : nat) (st : run_state)
    : option (run_state * (raised + bool)) :=
  match fuel with
  | 0 => None
  | S fuel' =>
      let cy := cycles p n in
      if eof cy then Some (st, inr false)
      else
        match record_line output_stream false (default [] (stdout_read cy))
                          (stdout_write_raises cy) st with
        | inl e => Some (st, inl e)
        | inr st0 =>
            match record_line output_stream true (default [] (stderr_read cy))
                              (stderr_write_raises cy) st0 with
            | inl e => Some (st0, inl e)
            | inr st1 =>
                if deadline timeout start cy
                then Some (kill p st1, inr true)
                else drain p start timeout output_stream fuel' (S n) st1
            end
        end
  end.

(** The state after the turns [n], ..., [n + m - 1] have been recorded
    on top of [st], when every chunk decodes and every write to the
    sink succeeds. *)
Fixpoint captured (p : process) (output_stream : bool) (n m : nat)
    (st : run_state) : option run_state :=
  match m with
  | 0 => Some st
  | S m' =>
      let cy := cycles p n in
      match record_line output_stream false (default [] (stdout_read cy))
                          (stdout_write_raises cy) st with
      | inl _ => None
      | inr st0 =>
          match record_line output_stream true (default [] (stderr_read cy))
                              (stderr_write_raises cy) st0 with
          | inl _ => None
          | inr st1 => captured p output_stream (S n) m' st1
          end
      end
  end.

(** After the loop the runner waits for the child to exit and returns
    the flag, the two lists and the exit code. The wait is taken to
    return (see [process]); a child that closes both streams and runs
    on is outside of what is described here. *)
Definition run_command (w : world) (fuel : nat) (cmd : list text)
    (timeout : option Z) (output_stream : bool)
    : option (run_state * (raised + (bool * (list text * list text) * option Z))) :=
  match spawn w cmd with
  | inl e => Some (init_state, inl (Foreign e))
  | inr p =>
      match drain p (start w) timeout output_stream fuel 0 init_state with
      | None => None
      | Some (st, inl e) => Some (st, inl e)
      | Some (st, inr timeout_occoured) =>
          Some (st, inr (timeout_occoured, process_output st, returncode p))
      end
  end.

(** *** [solve] *)

(** [retval != 0], where [retval] may be [None]. *)
Definition nonzero (retval : option Z) : bool :=
  negb (bool_decide (retval = Some 0%Z)).

(** Lines 100 and 101: the plan is parsed when the file is there, and
    stays [None] otherwise. *)
Definition read_plan (self : Solver) (w : world) (problem : Problem)
    : raised + option Plan :=
  match plan_file w with
  | Some content =>
      match _plan_from_file self problem content with
      | inl e => inl e
      | inr pl => inr (Some pl)
      end
  | None => inr None
  end.

(** The command line of the run, built from the three file names. *)
Definition command (self : Solver) (w : world) : list text :=
  let domanin_filename := path_join (tempdir w) (str "domain.pddl") in
  let problem_filename := path_join (tempdir w) (str "problem.pddl") in
  let plan_filename := path_join (tempdir w) (str "plan.txt") in
  _get_cmd self domanin_filename problem_filename plan_filename.

(** Writing the two input files and the temporary directory itself
    are taken to succeed; [callback] is not used by the source. *)
Definition solve (self : Solver) (w : world) (fuel : nat) (problem : Problem)
    (timeout : option Z) (output_stream : bool)
    : option (run_state * (raised + PlanGenerationResult)) :=
  let cmd := command self w in
  match run_command w fuel cmd timeout output_stream with
  | None => None
  | Some (st, inl e) => Some (st, inl e)
  | Some (st, inr (timeout_occurred, (proc_out, proc_err), retval)) =>
      let logs := [mkLogMessage INFO (concat proc_out);
                   mkLogMessage ERROR (concat proc_err)] in
      match read_plan self w problem with
      | inl e => Some (st, inl e)
      | inr plan =>
          if timeout_occurred && nonzero retval
          then Some (st, inr (mkPlanGenerationResult TIMEOUT plan logs (name self)))
          else
            let status := _result_status self problem plan in
            Some (st, inr (mkPlanGenerationResult status plan logs (name self)))
      end
  end.
End Model.

(** ** Plan texts, read the way the specification describes them *)

(** A line that, once trimmed, is empty or begins with a semicolon. *)
Definition is_blank_or_comment (l : text) : bool :=
  match strip l with
  | [] => true
  | a :: _ => Ascii.eqb a ";"
  end.

(** The lines [readlines] produces: no line feed inside a line, and every
    line but possibly the last one ends with a line feed. *)
Inductive lines_ok : list text -> Prop :=
| lines_ok_nil : lines_ok []
| lines_ok_last l : l <> [] -> NL ∉ l -> lines_ok [l]
| lines_ok_cons b ls : NL ∉ b -> lines_ok ls -> lines_ok ((b ++ [NL]) :: ls).

(** [reads lines items]: every line is blank, a comment or an action
    line, and [items] lists the name and the parameter tokens of the
    action lines in the order of the file. *)
Inductive reads : list text -> list (text * list text) -> Prop :=
| reads_nil : reads [] []
| reads_skip l ls items :
    blank_or_comment l -> reads ls items -> reads (l :: ls) items
| reads_action l name args ls items :
    action_line l name args -> reads ls items ->
    reads (l :: ls) ((name, map snd args) :: items).

(** Writing a plan back as text, one parenthesised action per line. *)
Definition serialize_action (item : text * list text) : text :=
  "(" :: item.1 ++ concat (map (fun p => " " :: p) item.2) ++ [")"; NL].

Definition serialize (items : list (text * list text)) : text :=
  concat (map serialize_action items).

(** What can be written back: a name and parameters that are tokens. *)
Definition item_ok (item : text * list text) : Prop :=
  token item.1 /\ Forall token item.2.

(** Neither a line feed nor a carriage return. *)
Definition is_plain (a : ascii) : bool :=
  negb (Ascii.eqb a NL) && negb (Ascii.eqb a CR).

(** ** A sample planner, problem and runs

    A blocks-like problem with two actions and three objects, a solver
    class named [DemoSolver] whose classifier answers 1 when there is a
    plan and 2 when there is none, and a few children of that solver. *)

Inductive demo_level : Type := DEMO_INFO | DEMO_ERROR.

Definition DEMO_TIMEOUT : Z := 3.

Definition known (names : list text) (n : text) : text + text :=
  if bool_decide (n ∈ names) then inr n else inl n.

Definition demo_problem : @Problem text text text := {|
  action := known [str "move"; str "pick-up"];
  object := known [str "a"; str "b"; str "?x"]
|}.

(** The sample actions take two parameters and one; the constructor
    of an instance refuses any other number. *)
Definition demo_arity (a : text) : nat :=
  if bool_decide (a = str "move") then 2 else 1.

#[global] Instance demo_init : @ActionInstanceInit text text text :=
  fun a parameters =>
    if bool_decide (length parameters = demo_arity a) then None
    else Some (str "AssertionError").

Definition demo_solver : @Solver text text text := {|
  name := str "demo";
  class_name := str "DemoSolver";
  needs_requirements := true;
  _get_cmd := fun domain problem plan => [str "planner"; domain; problem; plan];
  _result_status := fun _ plan => match plan with Some _ => 1%Z | None => 2%Z end
|}.

(** A decoder for the samples: every byte is one character. *)
Definition demo_decode (line : list Byte.byte) : text + text :=
  inr (map ascii_of_byte line).

Definition bytes (s : string) : list Byte.byte := list_byte_of_string s.

(** A child that prints one line, then stays silent for ever; it is
    already gone when the runner tries to kill it. *)
Definition demo_child_slow : @process text := {|
  cycles := fun n =>
    match n with
    | 0 => {| stdout_read := Some (bytes "searching"); stderr_read := None;
              now := 101;
              stdout_write_raises := None; stderr_write_raises := None |}
    | _ => {| stdout_read := None; stderr_read := None;
              now := 101 + Z.of_nat n;
              stdout_write_raises := None; stderr_write_raises := None |}
    end;
  kill_raises := true;
  returncode := Some (-9)%Z
|}.

(** A child that prints one line on each stream and ends with code 0. *)
Definition demo_child_ok : @process text := {|
  cycles := fun n =>
    match n with
    | 0 => {| stdout_read := Some (bytes "found a plan");
              stderr_read := Some (bytes "warning"); now := 101;
              stdout_write_raises := None; stderr_write_raises := None |}
    | _ => {| stdout_read := Some []; stderr_read := Some []; now := 101;
              stdout_write_raises := None; stderr_write_raises := None |}
    end;
  kill_raises := false;
  returncode := Some 0%Z
|}.


Definition demo_world (child : text + @process text) (plan : option text)
    : @world text := {|
  spawn := fun _ => child;
  start := 100;
  tempdir := str "/tmp/tmpdemo";
  plan_file := plan
|}.

Definition demo_plan_text : text :=
  str "; a plan" ++ [NL] ++ str "(move a b)" ++ [NL] ++ [NL]
  ++ str "  ( pick-up   ?x )  " ++ [NL].

(** The three runs used below: the silent child under a timeout of 2,
    the child that ends by itself next to a plan file, and a child that
    cannot be created. *)
Definition demo_world_slow : @world text := demo_world (inr demo_child_slow) None.

Definition demo_world_ok : @world text :=
  demo_world (inr demo_child_ok) (Some demo_plan_text).


Definition demo_world_comments : @world text :=
  demo_world (inr demo_child_ok) (Some (str "; no plan" ++ [NL; NL])).

Definition demo_world_unbalanced : @world text :=
  demo_world (inr demo_child_ok)
             (Some (str "(move a b)" ++ [NL] ++ str "(move a b" ++ [NL]
                    ++ str "(pick-up ?x)")).

Definition demo_world_nospawn : @world text :=
  demo_world (inl (str "planner: not found")) None.

Definition demo_solve (w : @world text) (fuel : nat) (timeout : option Z)
    (output_stream : bool) :=
  solve DEMO_TIMEOUT DEMO_INFO DEMO_ERROR demo_decode demo_solver w fuel
        demo_problem timeout output_stream.

Definition demo_plan : @Plan text text :=
  SequentialPlan
    [mkActionInstance (str "move") [ObjectExp (str "a"); ObjectExp (str "b")];
     mkActionInstance (str "pick-up") [ObjectExp (str "?x")]].

(** What the runner has recorded when the silent child is killed. *)
Definition demo_state_slow : run_state :=
  mkRunState ([str "searching"; []], [[]; []]) [str "searching"; []; []; []] 0.

Definition demo_result_slow : @PlanGenerationResult text text demo_level :=
  mkPlanGenerationResult DEMO_TIMEOUT None
    [mkLogMessage DEMO_INFO (str "searching"); mkLogMessage DEMO_ERROR []]
    (str "demo").

Definition demo_state_ok : run_state :=
  mkRunState ([str "found a plan"], [str "warning"]) [] 0.

Definition demo_result_ok : @PlanGenerationResult text text demo_level :=
  mkPlanGenerationResult 1 (Some demo_plan)
    [mkLogMessage DEMO_INFO (str "found a plan");
     mkLogMessage DEMO_ERROR (str "warning")]
    (str "demo").

(** ** Auxiliary readings used by the further properties *)

(** The chunks of the two streams in the order the sink receives them:
    one of standard output, then one of standard error, turn by turn. *)
Fixpoint interleave (out err : list text) : list text :=
  match out, err with
  | a :: out', b :: err' => a :: b :: interleave out' err'
  | _, _ => []
  end.

(** A text without its carriage returns. *)
Definition without_CR (s : text) : text :=
  List.filter (fun a => negb (Ascii.eqb a CR)) s.

(** A text in which every line feed is written as [e]: CR LF as
    Windows writes it, a lone CR as older systems did. *)
Definition with_line_end (e : text) (s : text) : text :=
  flat_map (fun a => if Ascii.eqb a NL then e else [a]) s.

(** The outcome of a run or of a call, without the record of what the
    runner did on the way. *)
Definition outcome {S A : Type} (r : option (S * A)) : option A :=
  option_map snd r.

(** What the loop keeps true of the state: as many chunks on either
    side, and a sink that has received them all, turn by turn. *)
Definition balanced (os : bool) (st : run_state) : Prop :=
  length (process_output st).1 = length (process_output st).2 /\
  written st = if os then interleave (process_output st).1 (process_output st).2
               else [].

(** Two states that differ in what went to the sink only. *)
Definition same_but_sink (st st' : run_state) : Prop :=
  process_output st = process_output st' /\ kills st = kills st'.

(** A problem that knows what the sample problem knows and, besides,
    an action under a name that is not a token. *)
Definition demo_problem_other : @Problem text text text := {|
  action := fun n =>
    if bool_decide (n = str "not a token") then inr (str "odd")
    else action demo_problem n;
  object := object demo_problem
|}.

(** A child that prints one line on each stream and closes both
    streams 100 ticks after the start. *)
Definition demo_child_late : @process text := {|
  cycles := fun n =>
    match n with
    | 0 => {| stdout_read := Some (bytes "found a plan");
              stderr_read := Some (bytes "warning"); now := 101;
              stdout_write_raises := None; stderr_write_raises := None |}
    | _ => {| stdout_read := Some []; stderr_read := Some []; now := 200;
              stdout_write_raises := None; stderr_write_raises := None |}
    end;
  kill_raises := false;
  returncode := Some 0%Z
|}.

Definition demo_world_late : @world text :=
  demo_world (inr demo_child_late) (Some demo_plan_text).

(** A decoder that refuses bytes above 127, and a child whose first
    line holds such a byte. *)
Definition demo_decode_strict (line : list Byte.byte) : text + text :=
  if forallb (fun b => Nat.ltb (Byte.to_nat b) 128) line
  then inr (map ascii_of_byte line)
  else inl (str "UnicodeDecodeError").

Definition demo_child_garbled : @process text := {|
  cycles := fun n =>
    match n with
    | 0 => {| stdout_read := Some (bytes "searching"); stderr_read := None;
              now := 101;
              stdout_write_raises := None; stderr_write_raises := None |}
    | _ => {| stdout_read := Some [Byte.xff]; stderr_read := None;
              now := 101 + Z.of_nat n;
              stdout_write_raises := None; stderr_write_raises := None |}
    end;
  kill_raises := false;
  returncode := Some 0%Z
|}.

Definition demo_world_garbled : @world text :=
  demo_world (inr demo_child_garbled) (Some demo_plan_text).

(** The child that ends by itself, seen through a sink that is closed:
    the first write raises. *)
Definition demo_child_closed_sink : @process text := {|
  cycles := fun n =>
    {| stdout_read := stdout_read (cycles demo_child_ok n);
       stderr_read := stderr_read (cycles demo_child_ok n);
       now := now (cycles demo_child_ok n);
       stdout_write_raises := Some (str "ValueError");
       stderr_write_raises := Some (str "ValueError") |};
  kill_raises := false;
  returncode := Some 0%Z
|}.

Definition demo_world_closed_sink : @world text :=
  demo_world (inr demo_child_closed_sink) (Some demo_plan_text).
Section Matcher.
Context {A : Type}.
Implicit Types (k : nat -> text -> gmap nat text -> option A).

Lemma star_loop_sound (r : regex) k :
  (forall i s c k' x, exec r i s c k' = Some x ->
     exists j s' c', Matches r i s c j s' c' /\ k' j s' c' = Some x) ->
  forall fuel i s c x, star_loop (exec r) k fuel i s c = Some x ->
    exists j s' c', Matches (Star r) i s c j s' c' /\ k j s' c' = Some x.
Proof.
  intros IH fuel. induction fuel as [|fuel IHf]; intros i s c x H; simpl in H.
  - exists i, s, c. split; [constructor | done].
  - destruct (exec r i s c _) as [y|] eqn:E.
    + injection H as ->.
      apply IH in E as (j & s' & c' & Hm & Hk).
      destruct (decide (length s' < length s)) as [Hlt|]; [|done].
      apply IHf in Hk as (j2 & s2 & c2 & Hm2 & Hk2).
      exists j2, s2, c2. split; [|done]. by eapply M_Star_cons.
    + exists i, s, c. split; [constructor | done].
Qed.

Lemma exec_sound (r : regex) : forall i s c k x,
  exec r i s c k = Some x ->
  exists j s' c', Matches r i s c j s' c' /\ k j s' c' = Some x.
Proof.
  induction r as [| |p|r1 IH1 r2 IH2|r IH|r IH|n r IH];
    intros i s c k x H; simpl in H.
  - destruct (decide (i = 0)) as [->|]; [|done].
    exists 0, s, c. split; [constructor | done].
  - destruct s as [|a [|b s]]; [| |done].
    + exists i, [], c. split; [constructor | done].
    + destruct (Ascii.eqb a NL) eqn:E; [|done].
      apply Ascii.eqb_eq in E as ->.
      exists i, [NL], c. split; [constructor | done].
  - destruct s as [|a s]; [done|]. destruct (p a) eqn:E; [|done].
    exists (S i), s, c. split; [by constructor | done].
  - apply IH1 in H as (j & s' & c' & Hm & Hk).
    apply IH2 in Hk as (j2 & s2 & c2 & Hm2 & Hk2).
    exists j2, s2, c2. split; [by econstructor | done].
  - eapply star_loop_sound; [|exact H]. intros; by apply IH.
  - destruct (exec r i s c k) as [y|] eqn:E.
    + injection H as ->. apply IH in E as (j & s' & c' & Hm & Hk).
      exists j, s', c'. split; [by constructor | done].
    + exists i, s, c. split; [apply M_Opt_none | done].
  - apply IH in H as (j & s' & c' & Hm & Hk).
    exists j, s', (<[n := take (j - i) s]> c'). split; [by constructor | done].
Qed.

Lemma star_loop_complete (r : regex) k :
  (forall i s c j s' c' k' x, Matches r i s c j s' c' ->
     k' j s' c' = Some x -> is_Some (exec r i s c k')) ->
  forall i s c j s' c', Matches (Star r) i s c j s' c' ->
  forall fuel x, length s <= fuel -> k j s' c' = Some x ->
    is_Some (star_loop (exec r) k fuel i s c).
Proof.
  intros IH i s c j s' c' Hm. remember (Star r) as R eqn:ER.
  induction Hm as [| | | | | | | |r0 i s c
                   |r0 i s c j s' c' j2 s2 c2 Hm1 _ Hlt Hm2 IHm2];
    try discriminate; injection ER as ->; intros fuel x Hfuel Hk.
  - destruct fuel as [|fuel]; simpl; [by eexists|].
    destruct (exec r i s c _); by eexists.
  - destruct fuel as [|fuel]; [lia|]. simpl.
    destruct (IHm2 eq_refl fuel x ltac:(lia) Hk) as [y Hy].
    edestruct (IH i s c j s' c') as [z Hz]; [exact Hm1| |rewrite Hz; by eexists].
    simpl. rewrite decide_True by done. exact Hy.
Qed.

Lemma exec_complete (r : regex) : forall i s c j s' c' k x,
  Matches r i s c j s' c' -> k j s' c' = Some x ->
  is_Some (exec r i s c k).
Proof.
  induction r as [| |p|r1 IH1 r2 IH2|r IH|r IH|n r IH];
    intros i s c j s' c' k x Hm Hk.
  - inversion Hm; subst. simpl. by eexists.
  - inversion Hm; subst; simpl; by eexists.
  - inversion Hm as [| | |p' a i' s0 c0 Hp| | | | | |]; subst. simpl.
    rewrite Hp. by eexists.
  - inversion Hm as [| | | |? ? ? ? ? j1 s1 c1 ? ? ? Hm1 Hm2| | | | |]; subst.
    simpl. destruct (IH2 _ _ _ _ _ _ k x Hm2 Hk) as [y Hy].
    by eapply IH1.
  - simpl. eapply star_loop_complete; eauto.
  - simpl. inversion Hm as [| | | | |? ? ? ? ? ? ? Hm1| | | |]; subst.
    + destruct (IH _ _ _ _ _ _ k x Hm1 Hk) as [y ->]. by eexists.
    + destruct (exec r j s' c' k); by eexists.
  - inversion Hm as [| | | | | | |? ? ? ? ? ? ? c1 Hm1| |]; subst. simpl.
    eapply IH; [exact Hm1|]. simpl. exact Hk.
Qed.

(** A match consumes a prefix of the rest and advances the offset by
    its length. *)
Lemma Matches_consumes r i s c j s' c' :
  Matches r i s c j s' c' -> exists w, s = w ++ s' /\ j = i + length w.
Proof.
  induction 1 as [| | |p a i s c Hp
                  |r1 r2 i s c j s' c' j2 s2 c2 _ IH1 _ IH2
                  |r i s c j s' c' _ IH| |n r i s c j s' c' _ IH|
                  |r i s c j s' c' j2 s2 c2 _ IH1 _ _ IH2];
    try (by exists []; split; [|simpl; lia]).
  - exists [a]. simpl. split; [done|lia].
  - destruct IH1 as (w1 & -> & ->), IH2 as (w2 & -> & ->).
    exists (w1 ++ w2). rewrite length_app, <- app_assoc. split; [done|lia].
  - done.
  - done.
  - destruct IH1 as (w1 & -> & ->), IH2 as (w2 & -> & ->).
    exists (w1 ++ w2). rewrite length_app, <- app_assoc. split; [done|lia].
Qed.
End Matcher.

(** *** Inversion of matches, construct by construct *)

Lemma Matches_Bol i s c j s' c' :
  Matches Bol i s c j s' c' <-> i = 0 /\ j = 0 /\ s' = s /\ c' = c.
Proof.
  split; [by inversion 1|]. intros (-> & -> & -> & ->). constructor.
Qed.

Lemma Matches_Eol i s c j s' c' :
  Matches Eol i s c j s' c' <-> (s = [] \/ s = [NL]) /\ j = i /\ s' = s /\ c' = c.
Proof.
  split; [inversion 1; subst; tauto|].
  intros ([-> | ->] & -> & -> & ->); constructor.
Qed.

Lemma Matches_Class p i s c j s' c' :
  Matches (Class p) i s c j s' c' <->
  exists a, p a = true /\ s = a :: s' /\ j = S i /\ c' = c.
Proof.
  split; [inversion 1; subst; eauto|].
  intros (a & Hp & -> & -> & ->). by constructor.
Qed.

Lemma Matches_Lit a i s c j s' c' :
  Matches (Lit a) i s c j s' c' <-> s = a :: s' /\ j = S i /\ c' = c.
Proof.
  unfold Lit. rewrite Matches_Class. split.
  - intros (b & Hb & -> & -> & ->). by apply Ascii.eqb_eq in Hb as ->.
  - intros (-> & -> & ->). exists a. by rewrite Ascii.eqb_refl.
Qed.

Lemma Matches_Cat r1 r2 i s c j2 s2 c2 :
  Matches (Cat r1 r2) i s c j2 s2 c2 <->
  exists j s' c', Matches r1 i s c j s' c' /\ Matches r2 j s' c' j2 s2 c2.
Proof.
  split; [inversion 1; subst; eauto 6|].
  intros (j & s' & c' & H1 & H2). by econstructor.
Qed.

Lemma Matches_Opt r i s c j s' c' :
  Matches (Opt r) i s c j s' c' <->
  Matches r i s c j s' c' \/ (j = i /\ s' = s /\ c' = c).
Proof.
  split; [inversion 1; subst; tauto|].
  intros [H | (-> & -> & ->)]; by constructor.
Qed.

Lemma Matches_Group n r i s c j s' c' :
  Matches (Group n r) i s c j s' c' <->
  exists w c1, Matches r i s c j s' c1 /\ s = w ++ s' /\ c' = <[n := w]> c1.
Proof.
  split.
  - inversion 1 as [| | | | | | |? ? ? ? ? ? ? c1 Hm| |]; subst.
    destruct (Matches_consumes _ _ _ _ _ _ _ Hm) as (w & -> & ->).
    exists w, c1. split_and!; [done..|].
    by replace (i + length w - i) with (length w) by lia; rewrite take_app_length.
  - intros (w & c1 & Hm & -> & ->).
    destruct (Matches_consumes _ _ _ _ _ _ _ Hm) as (w' & Hw & ->).
    apply app_inv_tail in Hw as <-.
    pose proof (M_Group n _ _ _ _ _ _ _ Hm) as H.
    replace (i + length w - i) with (length w) in H by lia.
    by rewrite take_app_length in H.
Qed.

Lemma Matches_Star_Class p i s c j s' c' :
  Matches (Star (Class p)) i s c j s' c' <->
  exists w, all p w /\ s = w ++ s' /\ j = i + length w /\ c' = c.
Proof.
  split.
  - intros H. remember (Star (Class p)) as R eqn:ER.
    induction H as [| | | | | | | |r i s c
                    |r i s c j s' c' j2 s2 c2 Hm1 _ Hlt Hm2 IH];
      try discriminate; injection ER as ->.
    + exists []. split_and!; [constructor|done|simpl; lia|done].
    + apply Matches_Class in Hm1 as (a & Hp & -> & -> & ->).
      destruct (IH eq_refl) as (w & Hw & -> & -> & ->).
      exists (a :: w). split_and!; [by constructor|done|simpl; lia|done].
  - intros (w & Hw & -> & -> & ->). revert i.
    induction Hw as [|a w Hp _ IH]; intros i; simpl.
    + replace (i + 0) with i by lia. apply M_Star_nil.
    + eapply M_Star_cons; [by constructor|simpl; lia|].
      replace (i + S (length w)) with (S i + length w) by lia. apply IH.
Qed.

Lemma Matches_Plus_Class p i s c j s' c' :
  Matches (Plus (Class p)) i s c j s' c' <->
  exists w, w <> [] /\ all p w /\ s = w ++ s' /\ j = i + length w /\ c' = c.
Proof.
  unfold Plus. rewrite Matches_Cat. split.
  - intros (j1 & s1 & c1 & H1 & H2).
    apply Matches_Class in H1 as (a & Hp & -> & -> & ->).
    apply Matches_Star_Class in H2 as (w & Hw & -> & -> & ->).
    exists (a :: w). split_and!; [done|by constructor|done|simpl; lia|done].
  - intros (w & Hne & Hw & -> & -> & ->).
    destruct w as [|a w]; [done|]. inversion Hw as [|? ? Hp Hw']; subst.
    exists (S i), (w ++ s'), c. split; [by constructor|].
    apply Matches_Star_Class. exists w. split_and!; [done..|simpl; lia|done].
Qed.


Lemma token_char_not_space a : is_token_char a = true -> is_space a = false.
Proof.
  destruct a as [[] [] [] [] [] [] [] []]; vm_compute; congruence.
Qed.

Lemma NL_space : is_space NL = true.
Proof. reflexivity. Qed.

Lemma all_app p (u v : text) : all p (u ++ v) <-> all p u /\ all p v.
Proof. apply Forall_app. Qed.

Lemma Matches_args_inv i s c j s' c' :
  Matches args_re i s c j s' c' ->
  exists args, Forall sep_token args /\ s = arg_text args ++ s' /\
    j = i + length (arg_text args) /\ forall n, n <> 3 -> c' !! n = c !! n.
Proof.
  unfold args_re. intros H.
  remember (Star (Group 3 (Plus ws ⋅ Plus tok)%re)) as R eqn:ER.
  induction H as [| | | | | | | |r i s c
                  |r i s c j s' c' j2 s2 c2 Hm1 _ Hlt Hm2 IH];
    try discriminate; injection ER as ->.
  - exists []. split_and!; [constructor|done|simpl; lia|done].
  - destruct (IH eq_refl) as (args & Hargs & -> & -> & Hc).
    apply Matches_Group in Hm1 as (w & c1 & Hm1 & Hs & ->).
    apply Matches_Cat in Hm1 as (j1 & s1 & c1' & Ha & Hb).
    apply Matches_Plus_Class in Ha as (sep & Hne & Hsep & -> & -> & ->).
    apply Matches_Plus_Class in Hb as (t & Hnt & Ht & -> & -> & ->).
    exists ((sep, t) :: args). split_and!.
    + constructor; [|done]. by repeat split.
    + unfold arg_text. simpl. by rewrite <- !app_assoc.
    + unfold arg_text. simpl. rewrite !length_app. lia.
    + intros n Hn. rewrite Hc by done. by rewrite lookup_insert_ne.
Qed.

Lemma Matches_args_intro args : Forall sep_token args ->
  forall i s' c, exists c',
    Matches args_re i (arg_text args ++ s') c (i + length (arg_text args)) s' c' /\
    forall n, n <> 3 -> c' !! n = c !! n.
Proof.
  unfold args_re.
  induction 1 as [|[sep t] args (Hne & Hsep & Hnt & Ht) _ IH]; intros i s' c.
  - exists c. split; [|done]. simpl. replace (i + 0) with i by lia. apply M_Star_nil.
  - destruct (IH (i + length sep + length t) s' (<[3 := sep ++ t]> c))
      as (c' & Hm & Hc).
    exists c'. split.
    + unfold arg_text in *. simpl in *. rewrite <- !app_assoc.
      eapply M_Star_cons; [| |].
      * apply Matches_Group. exists (sep ++ t), c. split_and!; [|by rewrite app_assoc|done].
        apply Matches_Cat. eexists _, _, _. split.
        -- apply Matches_Plus_Class. exists sep. by split_and!.
        -- apply Matches_Plus_Class. exists t. by split_and!.
      * rewrite !length_app. destruct sep; [done|]. simpl. lia.
      * rewrite !length_app.
        replace (i + (length sep + (length t + length (concat (map (fun st => st.1 ++ st.2) args)))))
          with (i + length sep + length t + length (concat (map (fun st => st.1 ++ st.2) args))) by lia.
        exact Hm.
    + intros n Hn. rewrite Hc by done. by rewrite lookup_insert_ne.
Qed.

Lemma Matches_action_inv l j s' c' :
  Matches action_re 0 l ∅ j s' c' ->
  exists name args, action_line l name args /\
    c' !! 1 = Some name /\ c' !! 2 = Some (arg_text args).
Proof.
  unfold action_re. intros H.
  apply Matches_Cat in H as (j0 & s0 & c0 & H0 & H).
  apply Matches_Bol in H0 as (_ & -> & -> & ->).
  apply Matches_Cat in H as (j1 & s1 & c1 & H1 & H).
  apply Matches_Star_Class in H1 as (w1 & Hw1 & -> & -> & ->).
  apply Matches_Cat in H as (j2 & s2 & c2 & H2 & H).
  apply Matches_Lit in H2 as (-> & -> & ->).
  apply Matches_Cat in H as (j3 & s3 & c3 & H3 & H).
  apply Matches_Star_Class in H3 as (w2 & Hw2 & -> & -> & ->).
  apply Matches_Cat in H as (j4 & s4 & c4 & H4 & H).
  apply Matches_Group in H4 as (name & c4' & H4 & Hs & ->).
  apply Matches_Plus_Class in H4 as (name' & Hne & Hname & -> & -> & ->).
  apply app_inv_tail in Hs as ->.
  apply Matches_Cat in H as (j5 & s5 & c5 & H5 & H).
  apply Matches_Group in H5 as (g2 & c5' & H5 & Hs & ->).
  apply Matches_args_inv in H5 as (args & Hargs & -> & -> & Hc).
  apply app_inv_tail in Hs as <-.
  apply Matches_Cat in H as (j6 & s6 & c6 & H6 & H).
  apply Matches_Star_Class in H6 as (w3 & Hw3 & -> & -> & ->).
  apply Matches_Cat in H as (j7 & s7 & c7 & H7 & H).
  apply Matches_Lit in H7 as (-> & -> & ->).
  apply Matches_Cat in H as (j8 & s8 & c8 & H8 & H).
  apply Matches_Star_Class in H8 as (w4 & Hw4 & -> & -> & ->).
  apply Matches_Eol in H as (Hend & -> & -> & ->).
  exists name, args. split_and!.
  - exists w1, w2, w3, (w4 ++ s8). split_and!; try done.
    apply all_app. split; [done|].
    destruct Hend as [-> | ->]; [constructor|].
    constructor; [apply NL_space|constructor].
  - rewrite lookup_insert_ne by done. rewrite Hc by done.
    by rewrite lookup_insert_eq.
  - by rewrite lookup_insert_eq.
Qed.

Lemma Matches_action_intro l name args :
  action_line l name args ->
  exists c', Matches action_re 0 l ∅ (length l) [] c' /\
    c' !! 1 = Some name /\ c' !! 2 = Some (arg_text args).
Proof.
  intros (w1 & w2 & w3 & w4 & Hw1 & Hw2 & Hw3 & Hw4 & (Hne & Hname) & Hargs & ->).
  destruct (Matches_args_intro args Hargs
              (0 + length w1 + 1 + length w2 + length name)
              (w3 ++ ")" :: w4) (<[1 := name]> ∅)) as (c5 & H5 & Hc).
  exists (<[2 := arg_text args]> c5). split_and!.
  - unfold action_re.
    apply Matches_Cat. eexists 0, _, ∅. split; [by apply Matches_Bol|].
    apply Matches_Cat. eexists _, _, ∅. split.
    { apply Matches_Star_Class. exists w1. by split_and!. }
    apply Matches_Cat. eexists _, _, ∅. split; [by apply Matches_Lit|].
    apply Matches_Cat. eexists _, _, ∅. split.
    { apply Matches_Star_Class. exists w2. by split_and!. }
    apply Matches_Cat. eexists _, _, _. split.
    { apply Matches_Group. exists name, ∅. split_and!; [|done..].
      apply Matches_Plus_Class. exists name. by split_and!. }
    apply Matches_Cat. eexists _, _, _. split.
    { apply Matches_Group. exists (arg_text args), c5. split_and!; [|done..].
      replace (S (0 + length w1) + length w2 + length name)
        with (0 + length w1 + 1 + length w2 + length name) by lia.
      exact H5. }
    apply Matches_Cat. eexists _, _, _. split.
    { apply Matches_Star_Class. exists w3. by split_and!. }
    apply Matches_Cat. eexists _, _, _. split; [by apply Matches_Lit|].
    apply Matches_Cat. eexists _, [], _. split.
    { apply Matches_Star_Class. exists w4. split_and!; [done|by rewrite app_nil_r|done..]. }
    apply Matches_Eol. split_and!; [by left|..|done|done].
    repeat first [rewrite length_app | rewrite length_cons]. lia.
  - rewrite lookup_insert_ne by done. rewrite Hc by done.
    by rewrite lookup_insert_eq.
  - by rewrite lookup_insert_eq.
Qed.

Lemma prefix_unique p (w w' x x' : text) :
  all p w -> all p w' -> head_not p x -> head_not p x' ->
  w ++ x = w' ++ x' -> w = w' /\ x = x'.
Proof.
  intros Hw. revert w'.
  induction Hw as [|a w Ha _ IH]; intros w' Hw' Hx Hx' E.
  - destruct Hw' as [|b w' Hb _]; [done|].
    simpl in E. subst x. simpl in Hx. congruence.
  - destruct Hw' as [|b w' Hb Hw'].
    + simpl in E. subst x'. simpl in Hx'. congruence.
    + simpl in E. injection E as -> E.
      destruct (IH w' Hw' Hx Hx' E) as [-> ->]. done.
Qed.

Lemma suffix_unique p (x x' w w' : text) :
  all p w -> all p w' -> last_not p x -> last_not p x' ->
  x ++ w = x' ++ w' -> x = x' /\ w = w'.
Proof.
  intros Hw Hw' Hx Hx' E. apply (f_equal reverse) in E.
  rewrite !reverse_app in E.
  apply prefix_unique with (p := p) in E as [E1 E2];
    [|by apply Forall_reverse..|done|done].
  apply (f_equal reverse) in E1, E2. by rewrite !reverse_involutive in E1, E2.
Qed.

Lemma last_not_app p (x y : text) : y <> [] -> last_not p y -> last_not p (x ++ y).
Proof.
  unfold last_not. intros Hy H. rewrite reverse_app.
  destruct (reverse y) as [|a z] eqn:E; [|done].
  apply (f_equal reverse) in E. rewrite reverse_involutive in E. done.
Qed.

Lemma last_not_snoc p (x : text) a : p a = false -> last_not p (x ++ [a]).
Proof. intros H. apply last_not_app; [done|]. by unfold last_not. Qed.

Lemma space_not_token_char a : is_space a = true -> is_token_char a = false.
Proof.
  intros H. destruct (is_token_char a) eqn:E; [|done].
  apply token_char_not_space in E. congruence.
Qed.

Lemma token_head_not_space t : token t -> head_not is_space t.
Proof.
  intros [Hne Ht]. destruct Ht as [|a t Ha _]; [done|].
  by apply token_char_not_space.
Qed.

Lemma token_app_head_not_space t x : token t -> head_not is_space (t ++ x).
Proof.
  intros [Hne Ht]. destruct Ht as [|a t Ha _]; [done|].
  by apply token_char_not_space.
Qed.

Lemma token_last_not_space t : token t -> last_not is_space t.
Proof.
  intros [Hne Ht]. apply token_head_not_space. split.
  - intros E. apply (f_equal reverse) in E. by rewrite reverse_involutive in E.
  - by apply Forall_reverse.
Qed.

Lemma arg_text_cons sep t args :
  arg_text ((sep, t) :: args) = sep ++ t ++ arg_text args.
Proof. unfold arg_text. simpl. by rewrite <- app_assoc. Qed.

Lemma arg_text_last_not_space args :
  Forall sep_token args -> last_not is_space (arg_text args).
Proof.
  induction 1 as [|[sep t] args (_ & _ & Ht) _ IH]; [done|].
  rewrite arg_text_cons. destruct (arg_text args) as [|a g] eqn:E.
  - rewrite app_nil_r. apply last_not_app; [apply Ht|].
    by apply token_last_not_space.
  - rewrite app_assoc. by apply last_not_app.
Qed.

Lemma arg_text_head_not_token args w3 w4 :
  Forall sep_token args -> spaces w3 ->
  head_not is_token_char (arg_text args ++ w3 ++ ")" :: w4).
Proof.
  intros Hargs Hw3. destruct Hargs as [|[sep t] args (Hne & Hsep & _) _].
  - simpl. destruct Hw3 as [|a w3 Ha _]; [done|]. by apply space_not_token_char.
  - rewrite arg_text_cons. simpl in Hne, Hsep.
    destruct Hsep as [|a sep' Ha _]; [done|].
    by apply space_not_token_char.
Qed.

Lemma action_line_unique l name args name' args' :
  action_line l name args -> action_line l name' args' ->
  name = name' /\ arg_text args = arg_text args'.
Proof.
  intros (w1 & w2 & w3 & w4 & Hw1 & Hw2 & Hw3 & Hw4 & Hname & Hargs & ->)
         (v1 & v2 & v3 & v4 & Hv1 & Hv2 & Hv3 & Hv4 & Hname' & Hargs' & E).
  apply prefix_unique with (p := is_space) in E as [-> E];
    [|done|done|reflexivity|reflexivity].
  injection E as E.
  apply prefix_unique with (p := is_space) in E as [-> E];
    [|done|done|by apply token_app_head_not_space..].
  apply prefix_unique with (p := is_token_char) in E as [-> E];
    [|apply Hname|apply Hname'|by apply arg_text_head_not_token..].
  split; [done|].
  rewrite !app_assoc in E.
  change (")" :: w4) with ([")"] ++ w4) in E.
  change (")" :: v4) with ([")"] ++ v4) in E.
  rewrite !app_assoc in E.
  apply suffix_unique with (p := is_space) in E as [E _];
    [|done|done|by apply last_not_snoc..].
  apply app_inj_tail in E as [E _].
  apply suffix_unique with (p := is_space) in E as [E _];
    [done|done|done|by apply arg_text_last_not_space..].
Qed.

(** *** What [re.match] returns on each of the two patterns *)

Lemma re_match_action_inv l res :
  re_match action_re l = Some res ->
  exists name args, action_line l name args /\
    group 1 res = name /\ group 2 res = arg_text args.
Proof.
  unfold re_match. intros H.
  apply exec_sound in H as (j & s' & c' & Hm & [= ->]).
  apply Matches_action_inv in Hm as (name & args & Hl & H1 & H2).
  exists name, args. unfold group. by rewrite H1, H2.
Qed.

Lemma re_match_action l name args :
  action_line l name args ->
  exists res, re_match action_re l = Some res /\
    group 1 res = name /\ group 2 res = arg_text args.
Proof.
  intros Hl. destruct (Matches_action_intro l name args Hl) as (c' & Hm & _).
  destruct (exec_complete action_re 0 l ∅ _ _ _ (fun _ _ c => Some c) c' Hm eq_refl)
    as [res Hres].
  exists res. split; [exact Hres|].
  apply re_match_action_inv in Hres as (name' & args' & Hl' & -> & ->).
  destruct (action_line_unique _ _ _ _ _ Hl Hl') as [-> ->]. done.
Qed.

Lemma re_match_action_None l :
  re_match action_re l = None <-> ~ exists name args, action_line l name args.
Proof.
  split.
  - intros H (name & args & Hl).
    apply re_match_action in Hl as (res & Hres & _). congruence.
  - intros H. destruct (re_match action_re l) as [res|] eqn:E; [|done].
    apply re_match_action_inv in E as (name & args & Hl & _). destruct H; eauto.
Qed.

Lemma Matches_blank_inv l j s' c' :
  Matches blank_re 0 l ∅ j s' c' -> blank_or_comment l.
Proof.
  unfold blank_re. intros H.
  apply Matches_Cat in H as (j0 & s0 & c0 & H0 & H).
  apply Matches_Bol in H0 as (_ & -> & -> & ->).
  apply Matches_Cat in H as (j1 & s1 & c1 & H1 & H).
  apply Matches_Star_Class in H1 as (w & Hw & -> & -> & ->).
  apply Matches_Cat in H as (j2 & s2 & c2 & H2 & H).
  apply Matches_Eol in H as (Hend & -> & -> & ->).
  apply Matches_Opt in H2 as [H2 | (_ & -> & _)].
  - right. apply Matches_Group in H2 as (g & c3 & H2 & -> & _).
    apply Matches_Cat in H2 as (j3 & s3 & c4 & H3 & H4).
    apply Matches_Lit in H3 as (E & _ & _).
    apply Matches_Star_Class in H4 as (body & Hbody & -> & _ & _).
    exists w, body, s2. split_and!; [done..|by rewrite E].
  - left. apply all_app. split; [done|].
    destruct Hend as [-> | ->]; [constructor|].
    constructor; [apply NL_space|constructor].
Qed.

Lemma Matches_blank_intro l :
  blank_or_comment l -> exists j s' c', Matches blank_re 0 l ∅ j s' c'.
Proof.
  unfold blank_re.
  intros [Hl | (w & body & tail & Hw & Hbody & Htail & ->)].
  - exists (length l), [], ∅.
    apply Matches_Cat. eexists 0, _, ∅. split; [by apply Matches_Bol|].
    apply Matches_Cat. eexists _, [], ∅. split.
    { apply Matches_Star_Class. exists l. split_and!; [done|by rewrite app_nil_r|done..]. }
    apply Matches_Cat. eexists _, _, ∅. split; [apply M_Opt_none|].
    apply Matches_Eol. split_and!; [by left|done..].
  - eexists _, tail, _.
    apply Matches_Cat. eexists 0, _, ∅. split; [by apply Matches_Bol|].
    apply Matches_Cat. eexists _, _, ∅. split.
    { apply Matches_Star_Class. exists w. by split_and!. }
    apply Matches_Cat. eexists _, tail, _. split.
    { apply M_Opt_some. apply Matches_Group. exists (";" :: body), ∅.
      split_and!; [|done..].
      apply Matches_Cat. eexists _, _, ∅. split; [by apply Matches_Lit|].
      apply Matches_Star_Class. exists body. by split_and!. }
    apply Matches_Eol. by split_and!.
Qed.

Lemma re_match_blank l : is_Some (re_match blank_re l) <-> blank_or_comment l.
Proof.
  unfold re_match. split.
  - intros [res H]. apply exec_sound in H as (j & s' & c' & Hm & _).
    by eapply Matches_blank_inv.
  - intros H. apply Matches_blank_intro in H as (j & s' & c' & Hm).
    by eapply exec_complete.
Qed.


(** ** The character classes, listed

    The code points below U+0100 that Python's [\s] and [[\w?-]] accept,
    against which the two predicates are checked here. *)

Example is_space_codes :
  List.filter (fun n => is_space (ascii_of_nat n)) (seq 0 256)
  = [9; 10; 11; 12; 13; 28; 29; 30; 31; 32; 133; 160].
Proof. vm_compute. reflexivity. Qed.

Example is_token_char_codes :
  List.filter (fun n => is_token_char (ascii_of_nat n)) (seq 0 256)
  = [45] ++ seq 48 10 ++ [63] ++ seq 65 26 ++ [95] ++ seq 97 26
    ++ [170; 178; 179; 181; 185; 186; 188; 189; 190]
    ++ seq 192 23 ++ seq 216 31 ++ seq 248 8.
Proof. vm_compute. reflexivity. Qed.

(** ** [split], [strip] and [readlines] *)

Lemma split_from_skip (w s : text) :
  spaces w -> split_from [] (w ++ s) = split_from [] s.
Proof. induction 1 as [|a w Ha _ IH]; [done|]. simpl. by rewrite Ha. Qed.

Lemma split_from_run (t s cur : text) :
  all is_token_char t -> split_from cur (t ++ s) = split_from (cur ++ t) s.
Proof.
  intros Ht. revert cur. induction Ht as [|a t Ha _ IH]; intros cur.
  - by rewrite app_nil_r.
  - simpl. rewrite (token_char_not_space a Ha), IH. by rewrite <- app_assoc.
Qed.

Lemma split_from_args args : Forall sep_token args ->
  forall cur, split_from cur (arg_text args) =
    match cur with [] => [] | _ => [cur] end ++ map snd args.
Proof.
  induction 1 as [|[sep t] args (Hne & Hsep & Hnt & Ht) _ IH]; intros cur.
  - simpl. by rewrite app_nil_r.
  - rewrite arg_text_cons. simpl in Hne, Hsep, Hnt, Ht.
    destruct Hsep as [|a sep' Ha Hsep']; [done|].
    assert (split_from [] (sep' ++ t ++ arg_text args) = t :: map snd args) as E.
    { rewrite split_from_skip by done. rewrite split_from_run by done.
      rewrite IH. simpl. by destruct t. }
    simpl. rewrite Ha, E. by destruct cur.
Qed.

Lemma split_arg_text args :
  Forall sep_token args -> split (arg_text args) = map snd args.
Proof. intros H. unfold split. by rewrite split_from_args. Qed.

Lemma lstrip_spec (l : text) :
  exists w, spaces w /\ l = w ++ lstrip l /\ head_not is_space (lstrip l).
Proof.
  induction l as [|a l (w & Hw & E & Hh)].
  { exists []. split_and!; [constructor|done..]. }
  simpl. destruct (is_space a) eqn:Ha.
  - exists (a :: w). split_and!; [by constructor|by rewrite E at 1|done].
  - exists []. split_and!; [constructor|done|done].
Qed.

Lemma lstrip_snoc (x : text) a :
  is_space a = false -> exists y, lstrip (x ++ [a]) = y ++ [a].
Proof.
  intros Ha. induction x as [|b x [y IH]]; simpl.
  - rewrite Ha. by exists [].
  - destruct (is_space b); [by exists y|]. by exists (b :: x).
Qed.

Lemma rstrip_cons a (t : text) :
  is_space a = false -> exists r, rstrip (a :: t) = a :: r.
Proof.
  intros Ha. unfold rstrip. rewrite reverse_cons.
  destruct (lstrip_snoc (reverse t) a Ha) as [y ->].
  rewrite reverse_snoc. by eexists.
Qed.

(** A trimmed line is empty, or begins with a semicolon, exactly when
    the line is white space, or white space and then a semicolon. *)
Lemma is_blank_or_comment_spec (l : text) :
  is_blank_or_comment l = true <->
  spaces l \/ exists w rest, spaces w /\ l = w ++ ";" :: rest.
Proof.
  unfold is_blank_or_comment, strip.
  destruct (lstrip_spec l) as (w & Hw & E & Hh).
  destruct (lstrip l) as [|a t] eqn:El.
  - rewrite app_nil_r in E. subst w. split; [by left|done].
  - simpl in Hh. destruct (rstrip_cons a t Hh) as [r ->]. split.
    + intros ->%Ascii.eqb_eq. right. by exists w, t.
    + intros [Hl | (w' & rest & Hw' & E')].
      * rewrite E in Hl. apply all_app in Hl as [_ Hl].
        inversion Hl; congruence.
      * rewrite E in E'.
        apply prefix_unique with (p := is_space) in E' as [_ [= -> _]];
          [|done|done|done|reflexivity].
        apply Ascii.eqb_refl.
Qed.

Lemma all_is_dot (body : text) : all is_dot body <-> NL ∉ body.
Proof.
  unfold all, is_dot. rewrite Forall_forall. split.
  - intros H Hin. specialize (H _ Hin). by rewrite Ascii.eqb_refl in H.
  - intros H a Ha. destruct (Ascii.eqb a NL) eqn:E; [|done].
    apply Ascii.eqb_eq in E as ->. done.
Qed.

(** Within a line as [readlines] gives it, trimming decides the first
    pattern. *)
Lemma blank_or_comment_line (l b : text) :
  NL ∉ b -> l = b ++ [NL] \/ l = b ->
  blank_or_comment l <-> is_blank_or_comment l = true.
Proof.
  intros Hb Hl. rewrite is_blank_or_comment_spec. split.
  - intros [H | (w & body & tail & Hw & _ & _ & ->)]; [by left|].
    right. by exists w, (body ++ tail).
  - intros [H | (w & rest & Hw & E)]; [by left|]. right.
    destruct Hl as [-> | ->].
    + destruct (decide (rest = [])) as [-> | Hne].
      * apply app_inj_tail in E as [_ E]. discriminate.
      * destruct (exists_last Hne) as (rest' & x & ->).
        change (w ++ ";" :: rest' ++ [x]) with (w ++ (";" :: rest') ++ [x]) in E.
        rewrite app_assoc in E. apply app_inj_tail in E as [-> <-].
        exists w, rest', [NL]. split_and!; [done| |by right|by rewrite <- app_assoc].
        apply all_is_dot. intros Hin. apply Hb. set_solver.
    + subst b. exists w, rest, []. split_and!; [done| |by left|by rewrite app_nil_r].
      apply all_is_dot. intros Hin. apply Hb. set_solver.
Qed.

Lemma translate_newlines_no_CR (s : text) : CR ∉ translate_newlines s.
Proof.
  remember (length s) as n eqn:En. revert s En.
  induction n as [n IH] using lt_wf_ind. intros s ->.
  destruct s as [|a s]; simpl; [set_solver|].
  destruct (Ascii.eqb a CR) eqn:Ea.
  - apply not_elem_of_cons. split; [done|].
    destruct s as [|b s]; [set_solver|].
    destruct (Ascii.eqb b NL).
    + apply (IH (length s)); [simpl; lia|done].
    + apply (IH (length (b :: s))); [simpl; lia|done].
  - apply not_elem_of_cons. split.
    + intros E. by rewrite <- E, Ascii.eqb_refl in Ea.
    + apply (IH (length s)); [simpl; lia|done].
Qed.

Lemma translate_newlines_id (s : text) : CR ∉ s -> translate_newlines s = s.
Proof.
  induction s as [|a s IH]; [done|]. intros [Ha Hs]%not_elem_of_cons.
  simpl. destruct (Ascii.eqb a CR) eqn:Ea.
  - apply Ascii.eqb_eq in Ea. congruence.
  - by rewrite IH.
Qed.

Lemma concat_lines_from (s cur : text) : concat (lines_from cur s) = cur ++ s.
Proof.
  revert cur. induction s as [|a s IH]; intros cur; simpl.
  - destruct cur; simpl; by rewrite ?app_nil_r.
  - destruct (Ascii.eqb a NL) eqn:Ea.
    + apply Ascii.eqb_eq in Ea as ->. simpl. rewrite IH. simpl.
      by rewrite <- app_assoc.
    + rewrite IH. by rewrite <- app_assoc.
Qed.

Lemma lines_from_ok (s cur : text) : NL ∉ cur -> lines_ok (lines_from cur s).
Proof.
  revert cur. induction s as [|a s IH]; intros cur Hcur; simpl.
  - destruct cur; [constructor|]. by constructor.
  - destruct (Ascii.eqb a NL) eqn:Ea.
    + constructor; [done|]. apply IH. set_solver.
    + apply IH. apply not_elem_of_app. split; [done|].
      apply not_elem_of_cons. split; [|set_solver].
      intros E. by rewrite <- E, Ascii.eqb_refl in Ea.
Qed.

Lemma lines_from_line (b s cur : text) :
  NL ∉ b -> lines_from cur (b ++ NL :: s) = (cur ++ b ++ [NL]) :: lines_from [] s.
Proof.
  revert cur. induction b as [|a b IH]; intros cur Hb; simpl.
  - done.
  - apply not_elem_of_cons in Hb as [Ha Hb].
    destruct (Ascii.eqb a NL) eqn:Ea.
    + apply Ascii.eqb_eq in Ea. congruence.
    + rewrite IH by done. by rewrite <- app_assoc.
Qed.

Lemma lines_from_last (b cur : text) :
  NL ∉ b -> lines_from cur b = match cur ++ b with [] => [] | _ => [cur ++ b] end.
Proof.
  revert cur. induction b as [|a b IH]; intros cur Hb; simpl.
  - by rewrite app_nil_r.
  - apply not_elem_of_cons in Hb as [Ha Hb].
    destruct (Ascii.eqb a NL) eqn:Ea.
    + apply Ascii.eqb_eq in Ea. congruence.
    + rewrite IH by done. by rewrite <- app_assoc.
Qed.

Lemma lines_from_concat (ls : list text) :
  lines_ok ls -> lines_from [] (concat ls) = ls.
Proof.
  induction 1 as [|l Hne Hl|b ls Hb _ IH]; simpl.
  - done.
  - rewrite app_nil_r, lines_from_last by done. simpl. by destruct l.
  - rewrite <- app_assoc. simpl. rewrite lines_from_line by done.
    by rewrite IH.
Qed.

Lemma lines_ok_remove (pre post : list text) l :
  lines_ok (pre ++ l :: post) -> lines_ok (pre ++ post).
Proof.
  induction pre as [|p pre IH]; simpl; intros H.
  - inversion H; subst; [constructor|done].
  - inversion H as [|? ? ? E|b ls Hb Hls]; subst.
    + by destruct pre.
    + constructor; [done|]. by apply IH.
Qed.

Lemma lines_ok_elem (ls : list text) l :
  lines_ok ls -> l ∈ ls -> exists b, (NL ∉ b) /\ (l = b ++ [NL] \/ l = b).
Proof.
  induction 1 as [|l' Hne Hl|b ls Hb _ IH]; intros Hin.
  - set_solver.
  - apply list_elem_of_singleton in Hin as ->. eauto.
  - apply elem_of_cons in Hin as [-> | Hin]; eauto.
Qed.

Lemma readlines_ok (content : text) : lines_ok (readlines content).
Proof. apply lines_from_ok. set_solver. Qed.

(** Taking a line out of a file and reading what is left gives the
    other lines, unchanged. *)
Lemma readlines_remove (content : text) (pre post : list text) l :
  readlines content = pre ++ l :: post ->
  readlines (concat (pre ++ post)) = pre ++ post.
Proof.
  intros E. pose proof (readlines_ok content) as Hok. rewrite E in Hok.
  unfold readlines. rewrite translate_newlines_id.
  - apply lines_from_concat. by eapply lines_ok_remove.
  - pose proof (translate_newlines_no_CR content) as Hcr.
    pose proof (concat_lines_from (translate_newlines content) []) as Hc.
    simpl in Hc. rewrite <- Hc in Hcr.
    fold (readlines content) in Hcr. rewrite E in Hcr.
    rewrite !concat_app in *. simpl in Hcr.
    rewrite !not_elem_of_app in Hcr. rewrite not_elem_of_app. tauto.
Qed.

(** ** The parser, line by line *)

Section Parser.
Context {Action Object Exn : Type}.
Context {init : @ActionInstanceInit Action Object Exn}.
Implicit Types (self : @Solver Action Object Exn).
Implicit Types (problem : @Problem Action Object Exn).

Lemma parameters_of_objects_of problem ps acc :
  parameters_of problem ps acc =
  match objects_of problem ps with
  | inl e => inl e
  | inr rest => inr (acc ++ rest)
  end.
Proof.
  revert acc. induction ps as [|p ps IH]; intros acc; simpl.
  - by rewrite app_nil_r.
  - destruct (object problem p) as [e|o]; [done|]. rewrite IH.
    destruct (objects_of problem ps); [done|]. by rewrite <- app_assoc.
Qed.

Lemma action_line_not_blank l name args :
  action_line l name args -> ~ blank_or_comment l.
Proof.
  intros (w1 & w2 & w3 & w4 & Hw1 & _ & _ & _ & _ & _ & ->)
         [H | (w & body & tail & Hw & _ & _ & E)].
  - apply all_app in H as [_ H]. inversion H as [|? ? Hp _]. discriminate Hp.
  - apply prefix_unique with (p := is_space) in E as [_ E];
      [|done|done|reflexivity|reflexivity].
    discriminate E.
Qed.

Lemma parse_line_blank self problem l :
  blank_or_comment l -> parse_line self problem l = inr None.
Proof.
  intros [res H]%re_match_blank. unfold parse_line. by rewrite H.
Qed.

Lemma parse_line_action self problem l name args :
  action_line l name args ->
  parse_line self problem l =
  match instance_of problem (name, map snd args) with
  | inl e => inl e
  | inr a => inr (Some a)
  end.
Proof.
  intros Hl. unfold parse_line, instance_of.
  destruct (re_match blank_re l) as [res|] eqn:Eb.
  { exfalso. eapply action_line_not_blank; [exact Hl|].
    apply re_match_blank. by eexists. }
  destruct (re_match_action l name args Hl) as (res & -> & -> & ->).
  rewrite split_arg_text by (destruct Hl as (? & ? & ? & ? & H); apply H).
  simpl. destruct (action problem name) as [e|a]; [done|].
  rewrite parameters_of_objects_of.
  destruct (objects_of problem (map snd args)) as [e|ps]; [done|].
  simpl. by destruct (new_ActionInstance a ps).
Qed.

Lemma parse_line_malformed self problem l :
  re_match blank_re l = None -> re_match action_re l = None ->
  parse_line self problem l = inl (UPException (parse_error_message self)).
Proof. intros Hb Ha. unfold parse_line. by rewrite Hb, Ha. Qed.

Lemma objects_of_Foreign problem ps e :
  objects_of problem ps = inl e -> exists x, e = Foreign x.
Proof.
  revert e. induction ps as [|p ps IH]; intros e; simpl; [done|].
  destruct (object problem p) as [x|o]; [intros [= <-]; by eexists|].
  destruct (objects_of problem ps) as [e'|]; [|done].
  intros [= <-]. by apply IH.
Qed.

Lemma new_ActionInstance_Foreign (a : Action) (ps : list (@FNode Object)) e :
  new_ActionInstance a ps = inl e -> exists x, e = Foreign x.
Proof.
  unfold new_ActionInstance. destruct (init_raises a ps); [|done].
  intros [= <-]. by eexists.
Qed.

Lemma new_ActionInstance_inr (a : Action) (ps : list (@FNode Object)) i :
  new_ActionInstance a ps = inr i <->
  init_raises a ps = None /\ i = mkActionInstance a ps.
Proof.
  unfold new_ActionInstance. destruct (init_raises a ps) as [e|].
  - split; [discriminate|]. intros [Hn _]. discriminate Hn.
  - split; [|intros [_ ->]; reflexivity].
    intros E. injection E as <-. by split.
Qed.

(** The only [UPException] the parser raises is the one for a line
    that matches neither pattern. *)
Lemma parse_line_UPException self problem l msg :
  parse_line self problem l = inl (UPException msg) ->
  re_match blank_re l = None /\ re_match action_re l = None /\
  msg = parse_error_message self.
Proof.
  unfold parse_line. destruct (re_match blank_re l); [done|].
  destruct (re_match action_re l) as [res|].
  - destruct (action problem _); [done|].
    rewrite parameters_of_objects_of.
    destruct (objects_of problem _) as [e|ps] eqn:E.
    + apply objects_of_Foreign in E as [x ->]. done.
    + simpl. unfold new_ActionInstance. by destruct (init_raises _ _).
  - by intros [= <-].
Qed.

Lemma parse_lines_app self problem l1 l2 acc :
  parse_lines self problem (l1 ++ l2) acc =
  match parse_lines self problem l1 acc with
  | inl e => inl e
  | inr acc' => parse_lines self problem l2 acc'
  end.
Proof.
  revert acc. induction l1 as [|l l1 IH]; intros acc; simpl; [done|].
  destruct (parse_line self problem l) as [e|[a|]]; [done|apply IH..].
Qed.

Lemma parse_lines_reads self problem lines items insts :
  reads lines items ->
  Forall2 (fun item a => instance_of problem item = inr a) items insts ->
  forall acc, parse_lines self problem lines acc = inr (acc ++ insts).
Proof.
  intros Hr. revert insts.
  induction Hr as [|l ls items Hl _ IH|l name args ls items Hl _ IH];
    intros insts Hi acc.
  - inversion Hi; subst. simpl. by rewrite app_nil_r.
  - simpl. rewrite parse_line_blank by done. by apply IH.
  - inversion Hi as [|? a ? insts' Ha Hi']; subst. simpl.
    rewrite (parse_line_action _ _ _ _ _ Hl), Ha.
    rewrite (IH insts' Hi'). by rewrite <- app_assoc.
Qed.

(** Conversely, a parse that succeeds has read every line as blank,
    comment or action line, and built the instances in that order. *)
Lemma parse_lines_inv self problem lines : forall acc insts,
  parse_lines self problem lines acc = inr insts ->
  exists items new,
    reads lines items /\ insts = acc ++ new /\
    Forall2 (fun item a => instance_of problem item = inr a) items new.
Proof.
  induction lines as [|l ls IH]; intros acc insts H; simpl in H.
  - injection H as <-. exists [], []. split_and!; [constructor|by rewrite app_nil_r|constructor].
  - destruct (re_match blank_re l) as [res|] eqn:Eb.
    + assert (blank_or_comment l) as Hl by (apply re_match_blank; by eexists).
      rewrite parse_line_blank in H by done.
      apply IH in H as (items & new & Hr & -> & Hi).
      exists items, new. split_and!; [by constructor|done|done].
    + destruct (re_match action_re l) as [res|] eqn:Ea.
      * apply re_match_action_inv in Ea as (name & args & Hl & _).
        rewrite (parse_line_action _ _ _ _ _ Hl) in H.
        destruct (instance_of problem (name, map snd args)) as [e|a] eqn:Ei; [done|].
        apply IH in H as (items & new & Hr & -> & Hi).
        exists ((name, map snd args) :: items), (a :: new).
        split_and!; [by constructor|by rewrite <- app_assoc|by constructor].
      * by rewrite parse_line_malformed in H.
Qed.

(** When the registries hand out entities that carry the name they were
    asked for, an instance stands for the name and tokens it was built
    from. *)
Lemma instance_of_describe problem name_of object_name item a :
  (forall n x, action problem n = inr x -> name_of x = n) ->
  (forall n o, object problem n = inr o -> object_name o = n) ->
  instance_of problem item = inr a ->
  describe name_of object_name a = item.
Proof.
  intros Hact Hobj. destruct item as [n ps]. unfold instance_of, describe. simpl.
  destruct (action problem n) as [e|x] eqn:Ea; [done|].
  destruct (objects_of problem ps) as [e|os] eqn:Eo; [done|].
  unfold new_ActionInstance. destruct (init_raises x os); [done|].
  intros [= <-]. simpl. rewrite (Hact _ _ Ea). f_equal.
  clear Ea. revert os Eo. induction ps as [|q ps IH]; intros os; simpl.
  - by intros [= <-].
  - destruct (object problem q) as [e|o] eqn:Eq; [done|].
    destruct (objects_of problem ps) as [e|os'] eqn:Eo'; [done|].
    intros [= <-]. simpl. rewrite (Hobj _ _ Eq). f_equal. by apply IH.
Qed.
Lemma instance_of_inr problem item a :
  instance_of problem item = inr a <->
  exists x parameters,
    action problem item.1 = inr x /\
    objects_of problem item.2 = inr parameters /\
    init_raises x parameters = None /\
    a = mkActionInstance x parameters.
Proof.
  unfold instance_of. split.
  - destruct (action problem item.1) as [e|x]; [done|].
    destruct (objects_of problem item.2) as [e|ps]; [done|].
    intros [Hi ->]%new_ActionInstance_inr. by exists x, ps.
  - intros (x & ps & -> & -> & Hi & ->). by apply new_ActionInstance_inr.
Qed.

Lemma parse_line_Some_inv self problem l a :
  parse_line self problem l = inr (Some a) ->
  exists name args,
    action_line l name args /\ instance_of problem (name, map snd args) = inr a.
Proof.
  intros H. destruct (re_match blank_re l) as [res|] eqn:Eb.
  { assert (blank_or_comment l) as Hl by (apply re_match_blank; by eexists).
    by rewrite parse_line_blank in H. }
  destruct (re_match action_re l) as [res|] eqn:Ea.
  - apply re_match_action_inv in Ea as (name & args & Hl & _).
    rewrite (parse_line_action _ _ _ _ _ Hl) in H.
    destruct (instance_of problem (name, map snd args)) as [e|a'] eqn:Ei; [done|].
    injection H as ->. by exists name, args.
  - by rewrite parse_line_malformed in H.
Qed.

(** A character of a token is no white space, no semicolon and no
    parenthesis. *)
Lemma token_char_leads (c : ascii) :
  is_token_char c = true -> is_space c = false /\ c <> ";" /\ c <> "(".
Proof.
  destruct c as [[] [] [] [] [] [] [] []]; vm_compute; intros H;
    try discriminate H; split_and!; done.
Qed.

(** A line that begins, after white space, with a token is neither
    blank, nor a comment, nor an action line. *)
Lemma parse_line_bare self problem (w t rest : text) :
  spaces w -> token t ->
  parse_line self problem (w ++ t ++ rest)
  = inl (UPException (parse_error_message self)).
Proof.
  intros Hw [Hne Ht]. destruct t as [|c t]; [done|].
  inversion Ht as [|? ? Hc _]; subst.
  apply token_char_leads in Hc as (Hs & Hsemi & Hparen).
  apply parse_line_malformed.
  - destruct (re_match blank_re (w ++ (c :: t) ++ rest)) as [res|] eqn:E; [|done].
    exfalso.
    assert (blank_or_comment (w ++ (c :: t) ++ rest)) as Hl
      by (apply re_match_blank; by eexists).
    destruct Hl as [H | (w' & body & tail & Hw' & _ & _ & E')].
    + apply all_app in H as [_ H]. inversion H as [|? ? Hp _]. congruence.
    + apply prefix_unique with (p := is_space) in E' as [_ E'];
        [|done|done|exact Hs|reflexivity].
      by injection E' as -> _.
  - apply re_match_action_None.
    intros (name & args & w1 & w2 & w3 & w4 & Hw1 & _ & _ & _ & _ & _ & E').
    apply prefix_unique with (p := is_space) in E' as [_ E'];
      [|done|done|exact Hs|reflexivity].
    by injection E' as -> _.
Qed.
End Parser.

(** ** Writing a plan and reading it back *)

Lemma token_char_plain a : is_token_char a = true -> is_plain a = true.
Proof.
  destruct a as [[] [] [] [] [] [] [] []]; vm_compute; congruence.
Qed.

Lemma all_plain (b : text) : all is_plain b -> (NL ∉ b) /\ (CR ∉ b).
Proof.
  induction 1 as [|a b Ha _ [IH1 IH2]]; [split; set_solver|].
  unfold is_plain in Ha. apply andb_true_iff in Ha as [H1 H2].
  rewrite !not_elem_of_cons. split_and!; [|done| |done].
  - intros E. by rewrite <- E, Ascii.eqb_refl in H1.
  - intros E. by rewrite <- E, Ascii.eqb_refl in H2.
Qed.

Lemma token_plain t : token t -> all is_plain t.
Proof.
  intros [_ Ht]. eapply Forall_impl; [exact Ht|]. apply token_char_plain.
Qed.

Lemma params_plain (ps : list text) :
  Forall token ps -> all is_plain (concat (map (fun p => " " :: p) ps)).
Proof.
  induction 1 as [|p ps Hp _ IH]; simpl; [constructor|].
  constructor; [reflexivity|]. apply all_app. split; [by apply token_plain|done].
Qed.

Lemma serialize_action_body item :
  item_ok item ->
  exists b, all is_plain b /\ serialize_action item = b ++ [NL].
Proof.
  intros [Hn Hps].
  exists ("(" :: item.1 ++ concat (map (fun p => " " :: p) item.2) ++ [")"]).
  split.
  - constructor; [reflexivity|]. apply all_app. split; [by apply token_plain|].
    apply all_app. split; [by apply params_plain|]. by repeat constructor.
  - unfold serialize_action. simpl. by rewrite <- !app_assoc.
Qed.

Lemma serialize_action_line item :
  item_ok item ->
  action_line (serialize_action item) item.1 (map (fun p => ([" "], p)) item.2).
Proof.
  intros [Hn Hps]. exists [], [], [], [NL]. split_and!; try done.
  - constructor.
  - constructor.
  - constructor.
  - by repeat constructor.
  - induction Hps as [|p ps Hp _ IH]; constructor; [|done].
    split_and!; [done|by repeat constructor|done].
  - unfold serialize_action, arg_text. simpl. rewrite map_map. done.
Qed.

Lemma serialize_lines_ok items :
  Forall item_ok items -> lines_ok (map serialize_action items).
Proof.
  induction 1 as [|item items Hi _ IH]; [constructor|]. cbn [map].
  destruct (serialize_action_body item Hi) as (b & Hb & ->).
  constructor; [by apply all_plain|done].
Qed.

Lemma serialize_no_CR items : Forall item_ok items -> CR ∉ serialize items.
Proof.
  unfold serialize. induction 1 as [|item items Hi _ IH]; [set_solver|].
  cbn [map concat].
  destruct (serialize_action_body item Hi) as (b & Hb & ->).
  rewrite !not_elem_of_app. split_and!; [by apply all_plain| |done].
  apply not_elem_of_cons. split; [done|set_solver].
Qed.

Lemma readlines_serialize items :
  Forall item_ok items -> readlines (serialize items) = map serialize_action items.
Proof.
  intros H. unfold readlines.
  rewrite translate_newlines_id by by apply serialize_no_CR.
  apply lines_from_concat. by apply serialize_lines_ok.
Qed.

Lemma reads_serialize items :
  Forall item_ok items -> reads (map serialize_action items) items.
Proof.
  induction 1 as [|[name ps] items Hi _ IH]; simpl; [constructor|].
  replace ps with (map snd (map (fun p : text => ([" "], p)) ps)) at 2.
  - constructor; [|done]. by apply (serialize_action_line (name, ps)).
  - rewrite map_map. simpl. apply map_id.
Qed.

Lemma reads_items_ok lines items : reads lines items -> Forall item_ok items.
Proof.
  induction 1 as [|l ls items _ _ IH|l name args ls items Hl _ IH];
    [constructor|done|].
  constructor; [|done].
  destruct Hl as (_ & _ & _ & _ & _ & _ & _ & _ & Hn & Hargs & _).
  split; [done|]. simpl. clear -Hargs.
  induction Hargs as [|[sep t] args (_ & _ & Ht) _ IH]; simpl; by constructor.
Qed.

(** ** The runner and the orchestrator *)

Section Runner.
Context {Action Object Exn LogLevel : Type}.
Context (TIMEOUT : Z) (INFO ERROR : LogLevel).
Context (decode : list Byte.byte -> Exn + text).
Context {init : @ActionInstanceInit Action Object Exn}.
Implicit Types (p : @process Exn) (w : @world Exn) (st : run_state).
Implicit Types (self : @Solver Action Object Exn).
Implicit Types (problem : @Problem Action Object Exn).

Lemma record_line_kills os idx line wr st st' :
  record_line decode os idx line wr st = inr st' -> kills st' = kills st.
Proof.
  unfold record_line. destruct (decode line); [done|].
  destruct (if os then wr else None); [done|].
  destruct (process_output st). by intros [= <-].
Qed.

Lemma record_line_output os idx line wr st st' :
  record_line decode os idx line wr st = inr st' ->
  exists chunk,
    decode line = inr chunk /\
    process_output st' =
      (if idx then ((process_output st).1, (process_output st).2 ++ [replace_crlf chunk])
       else ((process_output st).1 ++ [replace_crlf chunk], (process_output st).2)) /\
    written st' = if os then written st ++ [replace_crlf chunk] else written st.
Proof.
  unfold record_line. destruct (decode line) as [e|chunk]; [done|].
  destruct (if os then wr else None); [done|].
  destruct (process_output st) as [out err]. intros [= <-].
  exists chunk. by destruct idx.
Qed.

Lemma captured_kills p os m : forall n st st',
  captured decode p os n m st = Some st' -> kills st' = kills st.
Proof.
  induction m as [|m IH]; intros n st st' H; simpl in H; [by injection H as <-|].
  destruct (record_line _ _ false _ _ st) as [|st0] eqn:E0; [done|].
  destruct (record_line _ _ true _ _ st0) as [|st1] eqn:E1; [done|].
  apply IH in H. apply record_line_kills in E0, E1. congruence.
Qed.

(** Nothing recorded is ever dropped: what was captured after [m]
    turns is a prefix of what is captured after more turns. *)
Lemma captured_prefix p os m : forall n st st',
  captured decode p os n m st = Some st' ->
  (process_output st).1 `prefix_of` (process_output st').1 /\
  (process_output st).2 `prefix_of` (process_output st').2 /\
  written st `prefix_of` written st'.
Proof.
  induction m as [|m IH]; intros n st st' H; simpl in H.
  { by injection H as <-. }
  destruct (record_line _ _ false _ _ st) as [|st0] eqn:E0; [done|].
  destruct (record_line _ _ true _ _ st0) as [|st1] eqn:E1; [done|].
  apply IH in H as (H1 & H2 & H3).
  apply record_line_output in E0 as (c0 & _ & E0 & W0).
  apply record_line_output in E1 as (c1 & _ & E1 & W1).
  rewrite E1, E0 in H1, H2. simpl in H1, H2. rewrite W1, W0 in H3.
  split_and!.
  - etrans; [|exact H1]. by apply prefix_app_r.
  - etrans; [|exact H2]. by apply prefix_app_r.
  - etrans; [|exact H3]. destruct os; [|done].
    rewrite <- app_assoc. by apply prefix_app_r.
Qed.

Lemma drain_fuel_mono p start timeout os fuel : forall fuel' n st r,
  drain decode p start timeout os fuel n st = Some r -> fuel <= fuel' ->
  drain decode p start timeout os fuel' n st = Some r.
Proof.
  induction fuel as [|fuel IH]; intros fuel' n st r H Hle; [done|].
  destruct fuel' as [|fuel']; [lia|]. simpl in *.
  destruct (eof (cycles p n)); [done|].
  destruct (record_line _ _ false _ _ st) as [|st0]; [done|].
  destruct (record_line _ _ true _ _ st0) as [|st1]; [done|].
  destruct (deadline timeout start (cycles p n)); [done|].
  apply IH; [done|lia].
Qed.


(** A turn that sees the end of both streams ends the loop before the
    clock is looked at. *)
Lemma drain_eof p start timeout os fuel n st :
  eof (cycles p n) = true ->
  drain decode p start timeout os (S fuel) n st = Some (st, inr false).
Proof. intros H. simpl. by rewrite H. Qed.

(** With a deadline that some turn's test meets, the loop ends: by the
    end of both streams, by an exception, or by that test at the
    latest. *)
Lemma drain_returns p start timeout os k : forall n st fuel,
  deadline timeout start (cycles p (n + k)) = true ->
  k < fuel ->
  is_Some (drain decode p start timeout os fuel n st).
Proof.
  induction k as [|k IH]; intros n st fuel Hdl Hfuel;
    (destruct fuel as [|fuel]; [lia|]); simpl.
  - replace (n + 0) with n in Hdl by lia.
    destruct (eof (cycles p n)); [by eexists|].
    destruct (record_line _ _ false _ _ st) as [|st0]; [by eexists|].
    destruct (record_line _ _ true _ _ st0) as [|st1]; [by eexists|].
    rewrite Hdl. by eexists.
  - destruct (eof (cycles p n)); [by eexists|].
    destruct (record_line _ _ false _ _ st) as [|st0]; [by eexists|].
    destruct (record_line _ _ true _ _ st0) as [|st1]; [by eexists|].
    destruct (deadline timeout start (cycles p n)); [by eexists|].
    apply IH; [|lia]. by replace (S n + k) with (n + S k) by lia.
Qed.

Lemma solve_inv self w fuel problem timeout os st r :
  solve TIMEOUT INFO ERROR decode self w fuel problem timeout os = Some (st, inr r) ->
  exists t out err rv pl,
    run_command decode w fuel (command self w) timeout os
      = Some (st, inr (t, (out, err), rv)) /\
    read_plan self w problem = inr pl /\
    r = mkPlanGenerationResult
          (if t && nonzero rv then TIMEOUT else _result_status self problem pl)
          pl [mkLogMessage INFO (concat out); mkLogMessage ERROR (concat err)]
          (name self).
Proof.
  unfold solve.
  destruct (run_command _ _ _ _ _ _) as [[st' [e|[[t [out err]] rv]]]|]; [done| |done].
  destruct (read_plan self w problem) as [e|pl]; [done|].
  destruct (t && nonzero rv) eqn:E; intros [= <- <-];
    exists t, out, err, rv, pl; by rewrite E.
Qed.

Lemma solve_returns self w fuel problem timeout os st t out err rv pl :
  run_command decode w fuel (command self w) timeout os
    = Some (st, inr (t, (out, err), rv)) ->
  read_plan self w problem = inr pl ->
  solve TIMEOUT INFO ERROR decode self w fuel problem timeout os =
  Some (st, inr (mkPlanGenerationResult
                   (if t && nonzero rv then TIMEOUT
                    else _result_status self problem pl)
                   pl [mkLogMessage INFO (concat out);
                       mkLogMessage ERROR (concat err)]
                   (name self))).
Proof.
  intros Hrun Hplan. unfold solve. rewrite Hrun, Hplan.
  by destruct (t && nonzero rv).
Qed.

Lemma solve_raises_parse self w fuel problem timeout os st res e :
  run_command decode w fuel (command self w) timeout os = Some (st, inr res) ->
  read_plan self w problem = inl e ->
  solve TIMEOUT INFO ERROR decode self w fuel problem timeout os = Some (st, inl e).
Proof.
  intros Hrun Hplan. unfold solve. rewrite Hrun, Hplan.
  by destruct res as [[t [out err]] rv].
Qed.
End Runner.

(** * Properties of the planner *)

Section Claims.
Context {Action Object Exn LogLevel : Type}.
Context (TIMEOUT : Z) (INFO ERROR : LogLevel).
Context (decode : list Byte.byte -> Exn + text).
Context {init : @ActionInstanceInit Action Object Exn}.
Implicit Types (p : @process Exn) (w : @world Exn) (st : run_state).
Implicit Types (self : @Solver Action Object Exn).
Implicit Types (problem : @Problem Action Object Exn).

Local Abbreviation Solve := (solve TIMEOUT INFO ERROR decode).
Local Abbreviation Run := (run_command decode).

(** C1. Whenever [solve] returns a result, its status is [TIMEOUT]
    if the runner reported a timeout and the exit code is not 0 (an
    exit code that is not available counts as not 0), whatever plan was
    parsed; in every other case, also after a timeout with exit code 0,
    it is what [_result_status problem plan] returns. So, for a
    classifier that never answers [TIMEOUT] itself, the status is
    [TIMEOUT] exactly in the first case. *)
Theorem C1_status_decision self w fuel problem timeout os st r :
  Solve self w fuel problem timeout os = Some (st, inr r) ->
  exists t out rv,
    Run w fuel (command self w) timeout os = Some (st, inr (t, out, rv)) /\
    (t = true /\ rv <> Some 0%Z -> status r = TIMEOUT) /\
    (~ (t = true /\ rv <> Some 0%Z) ->
       status r = _result_status self problem (plan r)) /\
    (_result_status self problem (plan r) <> TIMEOUT ->
       (status r = TIMEOUT <-> t = true /\ rv <> Some 0%Z)).
Proof.
  intros (t & out & err & rv & pl & Hrun & _ & ->)%solve_inv.
  exists t, (out, err), rv. split; [exact Hrun|]. simpl.
  destruct (t && nonzero rv) eqn:E.
  - apply andb_true_iff in E as [-> Hnz]. unfold nonzero in Hnz.
    apply negb_true_iff, bool_decide_eq_false in Hnz.
    split_and!; [done|tauto|intros _; by split].
  - assert (~ (t = true /\ rv <> Some 0%Z)) as Hn.
    { intros [-> Hrv]. simpl in E. unfold nonzero in E.
      by apply negb_false_iff, bool_decide_eq_true in E. }
    split_and!; [tauto|done|]. intros Hne. split; [done|tauto].
Qed.

(** C8. Every result [solve] returns carries exactly two log messages,
    in this order: the whole captured standard output at level [INFO]
    and the whole captured standard error at level [ERROR]; both are
    there also when the captured text is empty. *)
Theorem C8_two_log_messages self w fuel problem timeout os st r :
  Solve self w fuel problem timeout os = Some (st, inr r) ->
  exists t out err rv,
    Run w fuel (command self w) timeout os
      = Some (st, inr (t, (out, err), rv)) /\
    log_messages r = [mkLogMessage INFO (concat out);
                      mkLogMessage ERROR (concat err)].
Proof.
  intros (t & out & err & rv & pl & Hrun & _ & ->)%solve_inv.
  by exists t, out, err, rv.
Qed.

(** C9. When the child cannot be created, the runner raises what
    process creation raised, and so does [solve]: there is no result,
    in particular no timeout and no empty outcome. *)
Theorem C9_spawn_failure_propagates self w fuel problem timeout os e :
  spawn w (command self w) = inl e ->
  Run w fuel (command self w) timeout os
    = Some (init_state, inl (Foreign e)) /\
  Solve self w fuel problem timeout os = Some (init_state, inl (Foreign e)).
Proof.
  intros H. assert (Run w fuel (command self w) timeout os
                    = Some (init_state, inl (Foreign e))) as Hrun.
  { unfold run_command. by rewrite H. }
  split; [exact Hrun|]. unfold solve. by rewrite Hrun.
Qed.

(** C2 (as amended). The parser accepts the parenthesised form only,
    with the parentheses around the name and the parameters. A line
    made of optional white space, an opening parenthesis, optional white
    space, a name token, any number of parameter tokens each preceded
    by white space, optional white space, a closing parenthesis and
    optional white space is read as an action line: the name and the
    parameters are looked up in that order and the instance is
    constructed from them, and whatever the lookups or the constructor
    may raise, the line never ends in the parser's own [UPException].
    A line that begins, after optional white space, with a token and
    not with a parenthesis, as the bare form and a name followed by
    parenthesised parameters do, always ends in that exception; and
    every line that gives an instance has the parenthesised form. *)
Theorem C2_parenthesised_line_accepted self problem l name args :
  action_line l name args ->
  parse_line self problem l =
    match instance_of problem (name, map snd args) with
    | inl e => inl e
    | inr a => inr (Some a)
    end /\
  (forall msg, parse_line self problem l <> inl (UPException msg)) /\
  (forall ws t rest,
     spaces ws -> token t ->
     parse_line self problem (ws ++ t ++ rest)
     = inl (UPException (parse_error_message self))) /\
  (forall l' a,
     parse_line self problem l' = inr (Some a) ->
     exists name' args', action_line l' name' args').
Proof.
  intros Hl. split_and!.
  - by apply parse_line_action.
  - intros msg (Hb & Ha & _)%parse_line_UPException.
    apply re_match_action_None in Ha. apply Ha. by exists name, args.
  - intros ws t rest. apply parse_line_bare.
  - intros l' a (name' & args' & Hl' & _)%parse_line_Some_inv.
    by exists name', args'.
Qed.

(** C3. When some line of the plan file matches neither pattern, the
    parse has failed by the time that line has been read, whatever
    follows it: [_plan_from_file] raises and returns no plan, not even
    the actions read so far. What it raises is the parser's
    [UPException] as soon as the lines before that one have gone
    through. [solve] parses the file whenever it exists, and then
    raises the same exception instead of returning a result. *)
Theorem C3_malformed_line_aborts self problem content pre l post :
  readlines content = pre ++ l :: post ->
  re_match blank_re l = None ->
  re_match action_re l = None ->
  exists e,
    _plan_from_file self problem content = inl e /\
    parse_lines self problem (pre ++ [l]) [] = inl e /\
    (forall acts, parse_lines self problem pre [] = inr acts ->
       e = UPException (parse_error_message self)) /\
    (forall w fuel timeout os st res,
       plan_file w = Some content ->
       Run w fuel (command self w) timeout os = Some (st, inr res) ->
       Solve self w fuel problem timeout os = Some (st, inl e)).
Proof.
  intros Hlines Hb Ha.
  pose proof (parse_line_malformed self problem l Hb Ha) as Hl.
  assert (exists e, parse_lines self problem (pre ++ [l]) [] = inl e /\
            forall acts, parse_lines self problem pre [] = inr acts ->
              e = UPException (parse_error_message self)) as (e & He & Hfirst).
  { rewrite parse_lines_app.
    destruct (parse_lines self problem pre []) as [e|acts].
    - by exists e.
    - simpl. rewrite Hl. eexists. split; [done|]. by intros ? _. }
  assert (_plan_from_file self problem content = inl e) as Hfile.
  { unfold _plan_from_file. rewrite Hlines.
    change (pre ++ l :: post) with (pre ++ [l] ++ post).
    rewrite app_assoc, parse_lines_app, He. done. }
  exists e. split_and!; [done..|].
  intros w fuel timeout os st res Hw Hrun.
  eapply solve_raises_parse; [exact Hrun|].
  unfold read_plan. by rewrite Hw, Hfile.
Qed.

(** C4 (as amended). For a line that matches neither pattern the
    parser raises [UPException] with the message
    "Error parsing plan generated by " followed by the name of the
    solver's class: the exception is the same for every such line,
    whatever the line holds. *)
Theorem C4_parse_error_message self problem l :
  re_match blank_re l = None ->
  re_match action_re l = None ->
  parse_line self problem l =
    inl (UPException (str "Error parsing plan generated by " ++ class_name self)) /\
  forall l',
    re_match blank_re l' = None -> re_match action_re l' = None ->
    parse_line self problem l' = parse_line self problem l.
Proof.
  intros Hb Ha. split; [by apply parse_line_malformed|].
  intros l' Hb' Ha'. by rewrite !parse_line_malformed.
Qed.


(** C6. For a plan text in which every line is blank, a comment or
    an action line whose names the problem knows and whose instance the
    constructor accepts, the parsed plan holds one instance per action
    line, in the order of the file, each with its parameters in the
    order of the tokens. Read back through the names of its actions and
    objects, the plan gives the names and the parameters of the text in
    the same order; and writing these out, one action per line, gives a
    text that parses to the same plan. *)
Theorem C6_order_preserved self problem content items insts :
  reads (readlines content) items ->
  Forall2 (fun item a => instance_of problem item = inr a) items insts ->
  _plan_from_file self problem content = inr (SequentialPlan insts) /\
  (forall name_of object_name,
     (forall n x, action problem n = inr x -> name_of x = n) ->
     (forall n o, object problem n = inr o -> object_name o = n) ->
     map (describe name_of object_name) insts = items) /\
  _plan_from_file self problem (serialize items) = inr (SequentialPlan insts).
Proof.
  intros Hr Hi. split_and!.
  - unfold _plan_from_file.
    by rewrite (parse_lines_reads self problem _ _ _ Hr Hi []).
  - intros name_of object_name Hact Hobj. clear Hr.
    induction Hi as [|item a items insts Ha _ IH]; [done|]. simpl.
    by rewrite (instance_of_describe problem _ _ _ _ Hact Hobj Ha), IH.
  - unfold _plan_from_file.
    pose proof (reads_items_ok _ _ Hr) as Hok.
    rewrite readlines_serialize by done.
    by rewrite (parse_lines_reads self problem _ _ _ (reads_serialize _ Hok) Hi []).
Qed.

(** C7. A line of the file that is empty, or starts with a semicolon,
    once trimmed, is skipped without failing, and the file parses to
    the same outcome as the file without that line. *)
Theorem C7_blank_lines_ignored self problem content pre l post :
  readlines content = pre ++ l :: post ->
  is_blank_or_comment l = true ->
  parse_line self problem l = inr None /\
  _plan_from_file self problem content =
    _plan_from_file self problem (concat (pre ++ post)).
Proof.
  intros Hlines Hl.
  assert (parse_line self problem l = inr None) as Hskip.
  { apply parse_line_blank.
    pose proof (readlines_ok content) as Hok. rewrite Hlines in Hok.
    destruct (lines_ok_elem _ l Hok) as (b & Hb & Hlb); [set_solver|].
    by apply (blank_or_comment_line l b). }
  split; [done|]. unfold _plan_from_file.
  rewrite (readlines_remove content pre post l Hlines), Hlines.
  rewrite !parse_lines_app. simpl. by rewrite Hskip.
Qed.

(** C10. A plan file in which every line is blank or a comment, an
    empty file included, parses to the plan with no actions, not to an
    error and not to the absence of a plan. When the solver leaves such
    a file, the result of [solve] carries that empty plan, and the
    classifier, when it is consulted, is given that empty plan and not
    [None]: it sees the same argument for every such file. *)
Theorem C10_empty_plan_file self w fuel problem timeout os content st t out err rv :
  plan_file w = Some content ->
  Forall (fun l => is_blank_or_comment l = true) (readlines content) ->
  Run w fuel (command self w) timeout os = Some (st, inr (t, (out, err), rv)) ->
  _plan_from_file self problem content = inr (SequentialPlan []) /\
  Solve self w fuel problem timeout os =
    Some (st, inr (mkPlanGenerationResult
                     (if t && nonzero rv then TIMEOUT
                      else _result_status self problem (Some (SequentialPlan [])))
                     (Some (SequentialPlan []))
                     [mkLogMessage INFO (concat out);
                      mkLogMessage ERROR (concat err)]
                     (name self))).
Proof.
  intros Hw Hall Hrun.
  assert (_plan_from_file self problem content = inr (SequentialPlan [])) as Hfile.
  { unfold _plan_from_file.
    assert (reads (readlines content) []) as Hr.
    { pose proof (readlines_ok content) as Hok.
      assert (forall l, l ∈ readlines content ->
                exists b, (NL ∉ b) /\ (l = b ++ [NL] \/ l = b)) as Hel
        by (intros l; by apply lines_ok_elem).
      clear Hok. induction Hall as [|l ls Hl _ IH]; [constructor|].
      constructor.
      - destruct (Hel l) as (b & Hb & Hlb); [set_solver|].
        by apply (blank_or_comment_line l b).
      - apply IH. intros l' Hin. apply Hel. set_solver. }
    rewrite (parse_lines_reads self problem _ [] [] Hr); [done|constructor]. }
  split; [done|].
  apply (solve_returns TIMEOUT INFO ERROR decode); [done|].
  unfold read_plan. by rewrite Hw, Hfile.
Qed.
End Claims.

(** * The properties on the sample planner *)

(** C1 on the silent child: the runner reports a timeout, the exit code
    is -9, and the status is [DEMO_TIMEOUT]. *)
Lemma C1_status_decision_witness :
  demo_solve demo_world_slow 10 (Some 2%Z) true
    = Some (mkRunState (process_output demo_state_slow)
                       (written demo_state_slow) 1,
            inr demo_result_slow) /\
  exists t out rv,
    run_command demo_decode demo_world_slow 10
      (command demo_solver demo_world_slow) (Some 2%Z) true
      = Some (mkRunState (process_output demo_state_slow)
                         (written demo_state_slow) 1,
              inr (t, out, rv)) /\
    (t = true /\ rv <> Some 0%Z -> status demo_result_slow = DEMO_TIMEOUT) /\
    (~ (t = true /\ rv <> Some 0%Z) ->
       status demo_result_slow
       = _result_status demo_solver demo_problem (plan demo_result_slow)) /\
    (_result_status demo_solver demo_problem (plan demo_result_slow) <> DEMO_TIMEOUT ->
       (status demo_result_slow = DEMO_TIMEOUT <-> t = true /\ rv <> Some 0%Z)).
Proof.
  split; [vm_compute; reflexivity|].
  apply (C1_status_decision DEMO_TIMEOUT DEMO_INFO DEMO_ERROR demo_decode
           demo_solver demo_world_slow 10 demo_problem (Some 2%Z) true).
  vm_compute. reflexivity.
Defined.

(** C2 (as amended) on a line with white space everywhere it may be,
    and on the bare form of another. *)
Lemma C2_parenthesised_line_accepted_witness :
  action_line (str "  ( pick-up   ?x )  ") (str "pick-up") [(str "   ", str "?x")] /\
  parse_line demo_solver demo_problem (str "  ( pick-up   ?x )  ")
    = inr (Some (mkActionInstance (str "pick-up") [ObjectExp (str "?x")])) /\
  (forall msg,
     parse_line demo_solver demo_problem (str "  ( pick-up   ?x )  ")
     <> inl (UPException msg)) /\
  parse_line demo_solver demo_problem (str " " ++ str "move" ++ str " a b")
    = inl (UPException (parse_error_message demo_solver)).
Proof.
  assert (action_line (str "  ( pick-up   ?x )  ") (str "pick-up")
                      [(str "   ", str "?x")]) as H.
  { exists (str "  "), (str " "), (str " "), (str "  ").
    split_and!; try (by repeat constructor); reflexivity. }
  split; [exact H|].
  destruct (C2_parenthesised_line_accepted demo_solver demo_problem _ _ _ H)
    as (H1 & H2 & H3 & _).
  split_and!; [exact H1|exact H2|].
  apply (H3 (str " ") (str "move") (str " a b")); by repeat constructor.
Defined.

(** C2 as it was stated fails on the bare form and on a name followed by
    parenthesised parameters: both lines are made of the tokens [move],
    [a] and [b], which the problem knows, and both end in the parser's
    [UPException]. *)
Lemma C2_bare_form_rejected :
  token (str "move") /\ Forall token [str "a"; str "b"] /\
  instance_of demo_problem (str "move", [str "a"; str "b"])
    = inr (mkActionInstance (str "move") [ObjectExp (str "a"); ObjectExp (str "b")]) /\
  _plan_from_file demo_solver demo_problem (str "move a b")
    = inl (UPException (str "Error parsing plan generated by DemoSolver")) /\
  _plan_from_file demo_solver demo_problem (str "move(a b)")
    = inl (UPException (str "Error parsing plan generated by DemoSolver")).
Proof.
  split_and!; try (vm_compute; reflexivity); by repeat constructor.
Qed.

(** A parenthesised line whose names the problem knows is still
    refused when the constructor does not accept the instance: [move]
    takes two parameters, and the assertion passes through the parser
    as it is, not as the parser's [UPException]. *)
Lemma constructor_refusal_passes_through :
  parse_line demo_solver demo_problem (str "(move a)")
    = inl (Foreign (str "AssertionError")) /\
  _plan_from_file demo_solver demo_problem (str "(move a)")
    = inl (Foreign (str "AssertionError")).
Proof. split; vm_compute; reflexivity. Qed.

(** C3 on a file whose second line lacks its closing parenthesis. *)
Lemma C3_malformed_line_aborts_witness :
  readlines (str "(move a b)" ++ [NL] ++ str "(move a b" ++ [NL] ++ str "(pick-up ?x)")
    = [str "(move a b)" ++ [NL]] ++ (str "(move a b" ++ [NL]) :: [str "(pick-up ?x)"] /\
  exists e : @raised text,
    _plan_from_file demo_solver demo_problem
      (str "(move a b)" ++ [NL] ++ str "(move a b" ++ [NL] ++ str "(pick-up ?x)")
      = inl e /\
    parse_lines demo_solver demo_problem
      ([str "(move a b)" ++ [NL]] ++ [str "(move a b" ++ [NL]]) [] = inl e /\
    (forall acts,
       parse_lines demo_solver demo_problem [str "(move a b)" ++ [NL]] [] = inr acts ->
       e = UPException (parse_error_message demo_solver)) /\
    (forall w fuel timeout os st res,
       plan_file w
         = Some (str "(move a b)" ++ [NL] ++ str "(move a b" ++ [NL] ++ str "(pick-up ?x)") ->
       run_command demo_decode w fuel (command demo_solver w) timeout os
         = Some (st, inr res) ->
       solve DEMO_TIMEOUT DEMO_INFO DEMO_ERROR demo_decode demo_solver w fuel
             demo_problem timeout os = Some (st, inl e)).
Proof.
  split; [vm_compute; reflexivity|].
  apply (C3_malformed_line_aborts DEMO_TIMEOUT DEMO_INFO DEMO_ERROR demo_decode
           demo_solver demo_problem _ [str "(move a b)" ++ [NL]]
           (str "(move a b" ++ [NL]) [str "(pick-up ?x)"]);
    vm_compute; reflexivity.
Defined.

(** C4 (as amended) on the same unbalanced line. *)
Lemma C4_parse_error_message_witness :
  re_match blank_re (str "(move a b") = None /\
  re_match action_re (str "(move a b") = None /\
  parse_line demo_solver demo_problem (str "(move a b")
    = inl (UPException (str "Error parsing plan generated by " ++ class_name demo_solver)) /\
  forall l',
    re_match blank_re l' = None -> re_match action_re l' = None ->
    parse_line demo_solver demo_problem l'
    = parse_line demo_solver demo_problem (str "(move a b").
Proof.
  split_and!; [vm_compute; reflexivity..| |];
    apply (C4_parse_error_message demo_solver demo_problem (str "(move a b"));
    vm_compute; reflexivity.
Defined.

(** C4 as it was stated fails: the message raised for the unbalanced
    line does not contain that line. *)
Lemma C4_message_lacks_line :
  parse_line demo_solver demo_problem (str "(move a b")
    = inl (UPException (str "Error parsing plan generated by DemoSolver")) /\
  contains (str "Error parsing plan generated by DemoSolver") (str "(move a b") = false.
Proof. split; vm_compute; reflexivity. Qed.



(** C6 on the sample plan text; actions and objects of the sample
    problem are their own names. *)
Lemma C6_order_preserved_witness :
  _plan_from_file demo_solver demo_problem demo_plan_text = inr demo_plan /\
  (forall name_of object_name,
     (forall n x, action demo_problem n = inr x -> name_of x = n) ->
     (forall n o, object demo_problem n = inr o -> object_name o = n) ->
     map (describe name_of object_name) (actions demo_plan)
     = [(str "move", [str "a"; str "b"]); (str "pick-up", [str "?x"])]) /\
  _plan_from_file demo_solver demo_problem
    (serialize [(str "move", [str "a"; str "b"]); (str "pick-up", [str "?x"])])
    = inr demo_plan.
Proof.
  apply (C6_order_preserved demo_solver demo_problem demo_plan_text
           [(str "move", [str "a"; str "b"]); (str "pick-up", [str "?x"])]).
  - change (readlines demo_plan_text)
      with [str "; a plan" ++ [NL]; str "(move a b)" ++ [NL]; [NL];
            str "  ( pick-up   ?x )  " ++ [NL]].
    apply reads_skip.
    { right. exists [], (str " a plan"), [NL].
      split_and!; [constructor|by repeat constructor|by right|reflexivity]. }
    apply (reads_action _ (str "move") [(str " ", str "a"); (str " ", str "b")]).
    { exists [], [], [], [NL].
      split_and!; try (by repeat constructor); reflexivity. }
    apply reads_skip.
    { left. by repeat constructor. }
    apply (reads_action _ (str "pick-up") [(str "   ", str "?x")]).
    { exists (str "  "), (str " "), (str " "), (str "  " ++ [NL]).
      split_and!; try (by repeat constructor); reflexivity. }
    constructor.
  - repeat constructor.
Defined.

(** C7 on the comment that opens the sample plan text. *)
Lemma C7_blank_lines_ignored_witness :
  readlines demo_plan_text
    = [] ++ (str "; a plan" ++ [NL])
         :: [str "(move a b)" ++ [NL]; [NL]; str "  ( pick-up   ?x )  " ++ [NL]] /\
  is_blank_or_comment (str "; a plan" ++ [NL]) = true /\
  parse_line demo_solver demo_problem (str "; a plan" ++ [NL]) = inr None /\
  _plan_from_file demo_solver demo_problem demo_plan_text =
  _plan_from_file demo_solver demo_problem
    (concat ([] ++ [str "(move a b)" ++ [NL]; [NL]; str "  ( pick-up   ?x )  " ++ [NL]])).
Proof.
  split; [vm_compute; reflexivity|]. split; [vm_compute; reflexivity|].
  apply (C7_blank_lines_ignored demo_solver demo_problem demo_plan_text []
           (str "; a plan" ++ [NL])
           [str "(move a b)" ++ [NL]; [NL]; str "  ( pick-up   ?x )  " ++ [NL]]);
    vm_compute; reflexivity.
Defined.

(** C8 on the child that ends by itself. *)
Lemma C8_two_log_messages_witness :
  demo_solve demo_world_ok 10 None false = Some (demo_state_ok, inr demo_result_ok) /\
  exists t out err rv,
    run_command demo_decode demo_world_ok 10 (command demo_solver demo_world_ok)
      None false = Some (demo_state_ok, inr (t, (out, err), rv)) /\
    log_messages demo_result_ok
      = [mkLogMessage DEMO_INFO (concat out); mkLogMessage DEMO_ERROR (concat err)].
Proof.
  split; [vm_compute; reflexivity|].
  apply (C8_two_log_messages DEMO_TIMEOUT DEMO_INFO DEMO_ERROR demo_decode
           demo_solver demo_world_ok 10 demo_problem None false).
  vm_compute. reflexivity.
Defined.

(** C9 on a planner that is not installed. *)
Lemma C9_spawn_failure_propagates_witness :
  spawn demo_world_nospawn (command demo_solver demo_world_nospawn)
    = inl (str "planner: not found") /\
  run_command demo_decode demo_world_nospawn 10
    (command demo_solver demo_world_nospawn) (Some 2%Z) false
    = Some (init_state, inl (Foreign (str "planner: not found"))) /\
  demo_solve demo_world_nospawn 10 (Some 2%Z) false
    = Some (init_state, inl (Foreign (str "planner: not found"))).
Proof.
  split; [reflexivity|].
  apply (C9_spawn_failure_propagates DEMO_TIMEOUT DEMO_INFO DEMO_ERROR demo_decode
           demo_solver demo_world_nospawn 10 demo_problem (Some 2%Z) false).
  reflexivity.
Defined.

(** C10 on a plan file that holds a comment and an empty line: the
    classifier is given the empty plan and answers 1, as for any plan. *)
Lemma C10_empty_plan_file_witness :
  Forall (fun l => is_blank_or_comment l = true)
         (readlines (str "; no plan" ++ [NL; NL])) /\
  _plan_from_file demo_solver demo_problem (str "; no plan" ++ [NL; NL])
    = inr (SequentialPlan []) /\
  demo_solve demo_world_comments 10 None false
    = Some (demo_state_ok,
            inr (mkPlanGenerationResult 1 (Some (SequentialPlan []))
                   [mkLogMessage DEMO_INFO (str "found a plan");
                    mkLogMessage DEMO_ERROR (str "warning")]
                   (str "demo"))).
Proof.
  assert (Forall (fun l => is_blank_or_comment l = true)
                 (readlines (str "; no plan" ++ [NL; NL]))) as H.
  { change (readlines (str "; no plan" ++ [NL; NL]))
      with [str "; no plan" ++ [NL]; [NL]].
    repeat constructor. }
  split; [exact H|].
  apply (C10_empty_plan_file DEMO_TIMEOUT DEMO_INFO DEMO_ERROR demo_decode
           demo_solver demo_world_comments 10 demo_problem None false
           (str "; no plan" ++ [NL; NL]) demo_state_ok false
           [str "found a plan"] [str "warning"] (Some 0%Z));
    [reflexivity|exact H|vm_compute; reflexivity].
Defined.

(** * Further properties of the parser *)

Section MoreParser.
Context {Action Object Exn : Type}.
Context {init : @ActionInstanceInit Action Object Exn}.
Implicit Types (self : @Solver Action Object Exn).
Implicit Types (problem : @Problem Action Object Exn).

Lemma parse_lines_acc self problem lines : forall acc,
  parse_lines self problem lines acc =
  match parse_lines self problem lines [] with
  | inl e => inl e
  | inr new => inr (acc ++ new)
  end.
Proof.
  induction lines as [|l ls IH]; intros acc; simpl.
  - by rewrite app_nil_r.
  - destruct (parse_line self problem l) as [e|[a|]]; [done| |apply IH].
    rewrite (IH (acc ++ [a])), (IH [a]).
    destruct (parse_lines self problem ls []); [done|].
    by rewrite <- app_assoc.
Qed.

Lemma plan_from_file_reads self problem content pl :
  _plan_from_file self problem content = inr pl <->
  exists items,
    reads (readlines content) items /\
    Forall2 (fun item a => instance_of problem item = inr a) items (actions pl).
Proof.
  unfold _plan_from_file. split.
  - destruct (parse_lines self problem (readlines content) []) as [e|insts] eqn:E;
      [done|].
    intros [= <-]. apply parse_lines_inv in E as (items & new & Hr & -> & Hi).
    by exists items.
  - intros (items & Hr & Hi).
    rewrite (parse_lines_reads self problem _ _ _ Hr Hi []). by destruct pl.
Qed.

(** X1. A plan file parses to a plan exactly when every line is
    blank, a comment or a parenthesised action line, and for the action
    lines, taken in file order, one for one: the problem knows the
    name and every parameter token, the constructor accepts the action
    with the objects found, and the plan holds that instance. *)
Theorem X1_parse_success_iff self problem content pl :
  _plan_from_file self problem content = inr pl <->
  exists items,
    reads (readlines content) items /\
    Forall2 (fun item a =>
               exists x parameters,
                 action problem item.1 = inr x /\
                 objects_of problem item.2 = inr parameters /\
                 init_raises x parameters = None /\
                 a = mkActionInstance x parameters)
            items (actions pl).
Proof.
  rewrite plan_from_file_reads.
  split; intros (items & Hr & Hi); exists items; (split; [done|]);
    (eapply Forall2_impl; [exact Hi|]); intros item a; apply instance_of_inr.
Qed.

Lemma objects_of_agree problem problem' ps :
  Forall token ps ->
  (forall t, token t -> object problem t = object problem' t) ->
  objects_of problem ps = objects_of problem' ps.
Proof.
  intros Hps Hobj. induction Hps as [|p ps Hp _ IH]; simpl; [done|].
  by rewrite <- (Hobj p Hp), IH.
Qed.

Lemma action_line_item_ok l name args :
  action_line l name args -> item_ok (name, map snd args).
Proof.
  intros (_ & _ & _ & _ & _ & _ & _ & _ & Hn & Hargs & _). split; [done|].
  simpl. induction Hargs as [|[sep t] args (_ & _ & Ht) _ IH]; simpl; by constructor.
Qed.

Lemma parse_line_agree self problem problem' l :
  (forall t, token t -> action problem t = action problem' t) ->
  (forall t, token t -> object problem t = object problem' t) ->
  parse_line self problem l = parse_line self problem' l.
Proof.
  intros Hact Hobj.
  destruct (re_match blank_re l) as [res|] eqn:Eb.
  { assert (blank_or_comment l) as Hl by (apply re_match_blank; by eexists).
    by rewrite !parse_line_blank. }
  destruct (re_match action_re l) as [res|] eqn:Ea.
  - apply re_match_action_inv in Ea as (name & args & Hl & _).
    rewrite !(parse_line_action _ _ _ _ _ Hl).
    destruct (action_line_item_ok _ _ _ Hl) as [Hn Hps]. simpl in Hn, Hps.
    unfold instance_of. simpl.
    by rewrite <- (Hact name Hn), (objects_of_agree problem problem' _ Hps Hobj).
  - by rewrite !parse_line_malformed.
Qed.

(** X2. The parser consults the problem on tokens only: two problems
    that know the same actions and objects under every token give the
    same outcome on every plan file, whatever they answer on other
    names. *)
Theorem X2_lookups_on_tokens_only self problem problem' content :
  (forall t, token t -> action problem t = action problem' t) ->
  (forall t, token t -> object problem t = object problem' t) ->
  _plan_from_file self problem content = _plan_from_file self problem' content.
Proof.
  intros Hact Hobj. unfold _plan_from_file.
  assert (forall lines acc,
            parse_lines self problem lines acc = parse_lines self problem' lines acc)
    as ->; [|done].
  induction lines as [|l ls IH]; intros acc; simpl; [done|].
  rewrite (parse_line_agree self problem problem' l Hact Hobj).
  destruct (parse_line self problem' l) as [e|[a|]]; [done|apply IH..].
Qed.

Lemma plan_from_file_fails self problem content pre l post acts e :
  readlines content = pre ++ l :: post ->
  parse_lines self problem pre [] = inr acts ->
  parse_line self problem l = inl e ->
  _plan_from_file self problem content = inl e.
Proof.
  intros Hlines Hpre Hl. unfold _plan_from_file.
  rewrite Hlines, parse_lines_app, Hpre. simpl. by rewrite Hl.
Qed.

(** X3. When the lines before an action line have gone through and
    the problem does not know the name of that line, the parse raises
    what the lookup of the action raised, whatever the parameters of the
    line and whatever follows it. *)
Theorem X3_unknown_action self problem content pre l post acts name args e :
  readlines content = pre ++ l :: post ->
  parse_lines self problem pre [] = inr acts ->
  action_line l name args ->
  action problem name = inl e ->
  _plan_from_file self problem content = inl (Foreign e).
Proof.
  intros Hlines Hpre Hl He. eapply plan_from_file_fails; [done..|].
  rewrite (parse_line_action _ _ _ _ _ Hl). unfold instance_of. simpl.
  by rewrite He.
Qed.

(** X4. When the action of a line is known, the parse raises what the
    lookup of the first parameter the problem does not know raised; the
    parameters after it are not looked at. *)
Theorem X4_unknown_object self problem content pre l post acts name args a
    known p rest e :
  readlines content = pre ++ l :: post ->
  parse_lines self problem pre [] = inr acts ->
  action_line l name args ->
  action problem name = inr a ->
  map snd args = known ++ p :: rest ->
  Forall (fun q => exists o, object problem q = inr o) known ->
  object problem p = inl e ->
  _plan_from_file self problem content = inl (Foreign e).
Proof.
  intros Hlines Hpre Hl Ha Hps Hknown He. eapply plan_from_file_fails; [done..|].
  rewrite (parse_line_action _ _ _ _ _ Hl). unfold instance_of. simpl.
  rewrite Ha, Hps.
  assert (objects_of problem (known ++ p :: rest) = inl (Foreign e)) as ->; [|done].
  clear Hps. induction Hknown as [|q known [o Hq] _ IH]; simpl.
  - by rewrite He.
  - by rewrite Hq, IH.
Qed.

(** X5. The first pattern accepts exactly the lines made of white
    space only, and the lines made of white space, a semicolon and a
    text without line feed, except possibly one at the very end. *)
Theorem X5_blank_pattern_language l :
  is_Some (re_match blank_re l) <-> blank_or_comment l.
Proof. apply re_match_blank. Qed.

(** X6. The second pattern accepts exactly the parenthesised action
    lines; its first group is then the name, and its second group the
    text from the end of the name to the end of the last parameter. *)
Theorem X6_action_pattern_language l name g :
  (exists res, re_match action_re l = Some res /\
               group 1 res = name /\ group 2 res = g) <->
  (exists args, action_line l name args /\ g = arg_text args).
Proof.
  split.
  - intros (res & Hres & <- & <-).
    apply re_match_action_inv in Hres as (name & args & Hl & -> & ->).
    by exists args.
  - intros (args & Hl & ->). by apply re_match_action.
Qed.

(** X7. No line matches both patterns, so the order of the two tests
    decides nothing. *)
Theorem X7_patterns_disjoint l :
  ~ (is_Some (re_match blank_re l) /\ is_Some (re_match action_re l)).
Proof.
  intros [Hb%re_match_blank [res Ha]].
  apply re_match_action_inv in Ha as (name & args & Hl & _).
  by eapply action_line_not_blank.
Qed.

Lemma lstrip_app (w x : text) :
  spaces w -> head_not is_space x -> lstrip (w ++ x) = x.
Proof.
  intros Hw Hx. induction Hw as [|a w Ha _ IH]; simpl.
  - destruct x as [|b x]; [done|]. simpl in *. by rewrite Hx.
  - by rewrite Ha.
Qed.

Lemma rstrip_app (x w : text) :
  spaces w -> last_not is_space x -> rstrip (x ++ w) = x.
Proof.
  intros Hw Hx. unfold rstrip. rewrite reverse_app, lstrip_app.
  - apply reverse_involutive.
  - by apply Forall_reverse.
  - exact Hx.
Qed.

(** X8. A line that is read as an action begins, once trimmed, with
    the opening parenthesis and ends with the closing one: nothing but
    white space may precede or follow the parentheses, a comment after
    the action included. *)
Theorem X8_action_line_trimmed self problem l a :
  parse_line self problem l = inr (Some a) ->
  head (strip l) = Some "(" /\ last (strip l) = Some ")".
Proof.
  intros (name & args & (w1 & w2 & w3 & w4 & Hw1 & _ & _ & Hw4 & _ & _ & ->) & _)
    %parse_line_Some_inv.
  assert (strip (w1 ++ "(" :: w2 ++ name ++ arg_text args ++ w3 ++ ")" :: w4)
          = "(" :: (w2 ++ name ++ arg_text args ++ w3) ++ [")"]) as ->.
  { unfold strip. rewrite lstrip_app; [|done|reflexivity].
    rewrite <- (rstrip_app ("(" :: (w2 ++ name ++ arg_text args ++ w3) ++ [")"]) w4);
      [|done|].
    - f_equal. simpl. by rewrite <- !app_assoc.
    - apply (last_not_snoc is_space ("(" :: w2 ++ name ++ arg_text args ++ w3) ")").
      reflexivity. }
  split; [done|].
  change ("(" :: (w2 ++ name ++ arg_text args ++ w3) ++ [")"])
    with (("(" :: w2 ++ name ++ arg_text args ++ w3) ++ [")"]).
  apply last_snoc.
Qed.

Lemma reads_length lines items :
  Forall (fun l => exists b, (NL ∉ b) /\ (l = b ++ [NL] \/ l = b)) lines ->
  reads lines items ->
  length items
  = length (List.filter (fun l => negb (is_blank_or_comment l)) lines).
Proof.
  intros Hok Hr.
  induction Hr as [|l ls items Hl _ IH|l name args ls items Hl _ IH]; [done|..];
    inversion Hok as [|? ? (b & Hb & Hlb) Hok']; subst; simpl.
  - apply (blank_or_comment_line l b Hb Hlb) in Hl. rewrite Hl. simpl. by apply IH.
  - destruct (is_blank_or_comment l) eqn:E.
    + apply (blank_or_comment_line l b Hb Hlb) in E.
      by apply action_line_not_blank in Hl.
    + simpl. f_equal. by apply IH.
Qed.

(** X10. A plan that is parsed has exactly one action for every line
    of the file that is neither blank nor a comment. *)
Theorem X10_one_action_per_line self problem content pl :
  _plan_from_file self problem content = inr pl ->
  length (actions pl)
  = length (List.filter (fun l => negb (is_blank_or_comment l)) (readlines content)).
Proof.
  intros (items & Hr & Hi)%plan_from_file_reads.
  rewrite <- (Forall2_length _ _ _ Hi). apply reads_length; [|done].
  apply Forall_forall. intros l Hl.
  by apply (lines_ok_elem _ _ (readlines_ok content)).
Qed.

Lemma translate_cons (a : ascii) (s : text) :
  Ascii.eqb a CR = false -> translate_newlines (a :: s) = a :: translate_newlines s.
Proof. intros H. cbn [translate_newlines]. by rewrite H. Qed.

Lemma translate_CR_NL (s : text) :
  translate_newlines (CR :: NL :: s) = NL :: translate_newlines s.
Proof. reflexivity. Qed.

Lemma translate_CR_cons (b : ascii) (s : text) :
  Ascii.eqb b NL = false ->
  translate_newlines (CR :: b :: s) = NL :: translate_newlines (b :: s).
Proof.
  intros H. cbn [translate_newlines].
  change (Ascii.eqb CR CR) with true. cbv iota. by rewrite H.
Qed.

Lemma with_line_end_cons (e : text) (a : ascii) (s : text) :
  with_line_end e (a :: s)
  = (if Ascii.eqb a NL then e else [a]) ++ with_line_end e s.
Proof. reflexivity. Qed.

Lemma with_line_end_CR_no_NL (s : text) : NL ∉ with_line_end [CR] s.
Proof.
  induction s as [|a s IH]; [by apply not_elem_of_nil|].
  rewrite with_line_end_cons. destruct (Ascii.eqb a NL) eqn:E.
  - apply not_elem_of_cons. split; [done|exact IH].
  - apply not_elem_of_cons. split; [|exact IH].
    intros <-. by rewrite Ascii.eqb_refl in E.
Qed.

Lemma translate_with_CR_NL (s : text) :
  CR ∉ s -> translate_newlines (with_line_end [CR; NL] s) = s.
Proof.
  induction s as [|a s IH]; [done|]. intros [Ha Hs]%not_elem_of_cons.
  rewrite with_line_end_cons. destruct (Ascii.eqb a NL) eqn:E.
  - apply Ascii.eqb_eq in E. subst a.
    change ([CR; NL] ++ with_line_end [CR; NL] s)
      with (CR :: NL :: with_line_end [CR; NL] s).
    by rewrite translate_CR_NL, IH.
  - change ([a] ++ with_line_end [CR; NL] s) with (a :: with_line_end [CR; NL] s).
    rewrite translate_cons by (apply Ascii.eqb_neq; congruence).
    by rewrite IH.
Qed.

Lemma translate_with_CR (s : text) :
  CR ∉ s -> translate_newlines (with_line_end [CR] s) = s.
Proof.
  induction s as [|a s IH]; [done|]. intros [Ha Hs]%not_elem_of_cons.
  specialize (IH Hs). pose proof (with_line_end_CR_no_NL s) as Hn.
  rewrite with_line_end_cons. destruct (Ascii.eqb a NL) eqn:E.
  - apply Ascii.eqb_eq in E. subst a.
    change ([CR] ++ with_line_end [CR] s) with (CR :: with_line_end [CR] s).
    destruct (with_line_end [CR] s) as [|b r].
    + by rewrite <- IH.
    + apply not_elem_of_cons in Hn as [Hb _].
      rewrite translate_CR_cons by (apply Ascii.eqb_neq; congruence).
      by rewrite IH.
  - change ([a] ++ with_line_end [CR] s) with (a :: with_line_end [CR] s).
    rewrite translate_cons by (apply Ascii.eqb_neq; congruence).
    by rewrite IH.
Qed.

(** X9. The way the lines of the plan file end does not matter: a
    plan written with CR LF at the end of every line, or with a lone CR
    there, parses to the same outcome as the plan written with LF. *)
Theorem X9_line_ends_do_not_matter self problem content :
  CR ∉ content ->
  _plan_from_file self problem (with_line_end [CR; NL] content)
  = _plan_from_file self problem content /\
  _plan_from_file self problem (with_line_end [CR] content)
  = _plan_from_file self problem content.
Proof.
  intros H. unfold _plan_from_file, readlines.
  by rewrite translate_with_CR_NL, translate_with_CR, translate_newlines_id.
Qed.

Lemma translate_newlines_app (c : text) a :
  a <> CR ->
  exists t, translate_newlines (c ++ [a]) = t ++ [a] /\
    forall s, translate_newlines (c ++ a :: s) = t ++ a :: translate_newlines s.
Proof.
  intros Ha. assert (Ascii.eqb a CR = false) as Ea by by apply Ascii.eqb_neq.
  remember (length c) as n eqn:En. revert c En.
  induction n as [n IH] using lt_wf_ind. intros c ->.
  destruct c as [|x c]; cbn [app].
  { exists []. rewrite translate_cons by done. split; [done|].
    intros s. by rewrite translate_cons. }
  destruct (Ascii.eqb x CR) eqn:Ex.
  - apply Ascii.eqb_eq in Ex as ->. destruct c as [|y c]; cbn [app].
    + destruct (Ascii.eqb a NL) eqn:Ean.
      * apply Ascii.eqb_eq in Ean as ->. exists []. split; [done|].
        intros s. apply translate_CR_NL.
      * exists [NL]. rewrite translate_CR_cons, translate_cons by done.
        split; [done|]. intros s.
        by rewrite translate_CR_cons, translate_cons.
    + destruct (Ascii.eqb y NL) eqn:Ey.
      * apply Ascii.eqb_eq in Ey as ->.
        destruct (IH (length c) ltac:(simpl; lia) c eq_refl) as (t & E1 & E2).
        exists (NL :: t). rewrite translate_CR_NL, E1. split; [done|].
        intros s. by rewrite translate_CR_NL, E2.
      * destruct (IH (length (y :: c)) ltac:(simpl; lia) (y :: c) eq_refl)
          as (t & E1 & E2).
        exists (NL :: t). rewrite translate_CR_cons by done.
        cbn [app] in E1, E2. rewrite E1. split; [done|].
        intros s. by rewrite translate_CR_cons, E2.
  - destruct (IH (length c) ltac:(simpl; lia) c eq_refl) as (t & E1 & E2).
    exists (x :: t). rewrite translate_cons, E1 by done. split; [done|].
    intros s. by rewrite translate_cons, E2.
Qed.

Lemma lines_from_app (t t2 cur : text) :
  lines_from cur (t ++ NL :: t2) = lines_from cur (t ++ [NL]) ++ lines_from [] t2.
Proof.
  revert cur. induction t as [|a t IH]; intros cur; simpl; [done|].
  destruct (Ascii.eqb a NL); [|apply IH]. simpl. by rewrite IH.
Qed.

Lemma readlines_app (c c2 : text) :
  readlines (c ++ NL :: c2) = readlines (c ++ [NL]) ++ readlines c2.
Proof.
  unfold readlines.
  destruct (translate_newlines_app c NL ltac:(done)) as (t & -> & ->).
  apply lines_from_app.
Qed.

(** X11. Plan files compose: a text whose first part ends with a line
    feed parses to the plan of the first part followed by the plan of
    the rest, and raises what the first part raises, or else what the
    rest raises. *)
Theorem X11_parse_concatenation self problem c c2 :
  _plan_from_file self problem (c ++ NL :: c2) =
  match _plan_from_file self problem (c ++ [NL]) with
  | inl e => inl e
  | inr p1 =>
      match _plan_from_file self problem c2 with
      | inl e => inl e
      | inr p2 => inr (SequentialPlan (actions p1 ++ actions p2))
      end
  end.
Proof.
  unfold _plan_from_file. rewrite readlines_app, parse_lines_app.
  destruct (parse_lines self problem (readlines (c ++ [NL])) []) as [e|acts];
    [done|].
  rewrite parse_lines_acc.
  by destruct (parse_lines self problem (readlines c2) []).
Qed.

Lemma lines_from_snoc (t : text) a :
  Ascii.eqb a NL = false ->
  forall cur, NL ∉ cur ->
  exists pre l,
    (NL ∉ l) /\
    lines_from cur (t ++ [a]) = pre ++ [l] /\
    lines_from cur (t ++ [a; NL]) = pre ++ [l ++ [NL]].
Proof.
  intros Ea. induction t as [|x t IH]; intros cur Hcur; simpl.
  - rewrite Ea. simpl. exists [], (cur ++ [a]). split_and!; [|by destruct cur|done].
    apply not_elem_of_app. split; [done|].
    apply not_elem_of_cons. split; [|set_solver].
    intros E. by rewrite <- E, Ascii.eqb_refl in Ea.
  - destruct (Ascii.eqb x NL) eqn:Ex.
    + destruct (IH [] ltac:(set_solver)) as (pre & l & Hl & E1 & E2).
      exists ((cur ++ [NL]) :: pre), l. by rewrite E1, E2.
    + apply IH. apply not_elem_of_app. split; [done|].
      apply not_elem_of_cons. split; [|set_solver].
      intros E. by rewrite <- E, Ascii.eqb_refl in Ex.
Qed.

Lemma blank_or_comment_NL (l : text) :
  NL ∉ l -> blank_or_comment (l ++ [NL]) <-> blank_or_comment l.
Proof.
  intros Hl. split.
  - intros [H | (w & body & tail & Hw & Hbody & Htail & E)].
    + left. by apply all_app in H as [H _].
    + right. destruct Htail as [-> | ->].
      * exfalso. rewrite app_nil_r in E.
        destruct (decide (body = [])) as [-> | Hne].
        -- apply app_inj_tail in E as [_ E]. discriminate E.
        -- destruct (exists_last Hne) as (body' & x & ->).
           change (w ++ ";" :: body' ++ [x]) with (w ++ (";" :: body') ++ [x]) in E.
           rewrite app_assoc in E. apply app_inj_tail in E as [_ <-].
           apply all_app in Hbody as [_ Hx]. inversion Hx as [|? ? Hd _].
           discriminate Hd.
      * change (w ++ ";" :: body ++ [NL]) with (w ++ (";" :: body) ++ [NL]) in E.
        rewrite app_assoc in E. apply app_inj_tail in E as [-> _].
        exists w, body, []. split_and!; [done|done|by left|by rewrite app_nil_r].
  - intros [H | (w & body & tail & Hw & Hbody & Htail & ->)].
    + left. apply all_app. split; [done|]. by repeat constructor.
    + right. destruct Htail as [-> | ->].
      * exists w, body, [NL]. split_and!; [done|done|by right|].
        rewrite app_nil_r. by rewrite <- app_assoc.
      * exfalso. apply Hl. set_solver.
Qed.

Lemma action_line_NL (l name : text) args :
  action_line (l ++ [NL]) name args <-> action_line l name args.
Proof.
  split.
  - intros (w1 & w2 & w3 & w4 & Hw1 & Hw2 & Hw3 & Hw4 & Hn & Hargs & E).
    destruct (decide (w4 = [])) as [-> | Hne].
    + exfalso. rewrite !app_comm_cons, !app_assoc in E.
      apply app_inj_tail in E as [_ E]. discriminate E.
    + destruct (exists_last Hne) as (w & x & ->).
      apply all_app in Hw4 as [Hw _].
      exists w1, w2, w3, w. split_and!; try done.
      rewrite !app_comm_cons, !app_assoc in E.
      apply app_inj_tail in E as [-> _].
      repeat (rewrite <- app_assoc; simpl). done.
  - intros (w1 & w2 & w3 & w4 & Hw1 & Hw2 & Hw3 & Hw4 & Hn & Hargs & ->).
    exists w1, w2, w3, (w4 ++ [NL]). split_and!; try done.
    + apply all_app. split; [done|]. by repeat constructor.
    + repeat (rewrite <- app_assoc; simpl). done.
Qed.

Lemma parse_line_NL self problem l :
  NL ∉ l -> parse_line self problem (l ++ [NL]) = parse_line self problem l.
Proof.
  intros Hl. destruct (re_match blank_re l) as [res|] eqn:Eb.
  { assert (blank_or_comment l) as H.
    { apply re_match_blank. by eexists. }
    rewrite (parse_line_blank _ _ l) by done.
    apply parse_line_blank. by apply (proj2 (blank_or_comment_NL l Hl)). }
  assert (re_match blank_re (l ++ [NL]) = None) as Eb'.
  { destruct (re_match blank_re (l ++ [NL])) as [res|] eqn:E; [|done].
    assert (blank_or_comment l) as H.
    { apply (proj1 (blank_or_comment_NL l Hl)). apply re_match_blank. by eexists. }
    apply re_match_blank in H as [res' H]. congruence. }
  destruct (re_match action_re l) as [res|] eqn:Ea.
  - apply re_match_action_inv in Ea as (name & args & H & _).
    rewrite (parse_line_action _ _ l _ _ H).
    apply parse_line_action. by apply (proj2 (action_line_NL l name args)).
  - rewrite (parse_line_malformed _ _ l) by done.
    apply parse_line_malformed; [done|].
    apply re_match_action_None. intros (name & args & H).
    apply (proj1 (action_line_NL l name args)) in H.
    apply re_match_action_None in Ea. apply Ea. by exists name, args.
Qed.

Lemma plan_from_file_snoc_NL self problem c a :
  a <> NL -> a <> CR ->
  _plan_from_file self problem (c ++ [a; NL]) =
  _plan_from_file self problem (c ++ [a]).
Proof.
  intros Hn Hc. apply Ascii.eqb_neq in Hn.
  unfold _plan_from_file, readlines.
  destruct (translate_newlines_app c a Hc) as (t & E1 & E2).
  rewrite E1, (E2 [NL]). change (translate_newlines [NL]) with [NL].
  destruct (lines_from_snoc t a Hn [] ltac:(set_solver)) as (pre & l & Hl & -> & ->).
  rewrite !parse_lines_app.
  destruct (parse_lines self problem pre []) as [e|acts]; [done|].
  simpl. by rewrite parse_line_NL.
Qed.

Lemma translate_newlines_CR_NL (c : text) :
  translate_newlines (c ++ [CR; NL]) = translate_newlines (c ++ [CR]).
Proof.
  remember (length c) as n eqn:En. revert c En.
  induction n as [n IH] using lt_wf_ind. intros c ->.
  destruct c as [|x c]; [reflexivity|]. cbn [app].
  destruct (Ascii.eqb x CR) eqn:Ex.
  - apply Ascii.eqb_eq in Ex as ->. destruct c as [|y c]; [reflexivity|].
    cbn [app]. destruct (Ascii.eqb y NL) eqn:Ey.
    + apply Ascii.eqb_eq in Ey as ->. rewrite !translate_CR_NL.
      f_equal. apply (IH (length c)); [simpl; lia|done].
    + rewrite !translate_CR_cons by done. f_equal.
      apply (IH (length (y :: c)) ltac:(simpl; lia) (y :: c) eq_refl).
  - rewrite !translate_cons by done. f_equal.
    apply (IH (length c)); [simpl; lia|done].
Qed.

(** X12. A line feed added at the very end of a plan file changes
    nothing: the file parses to the same outcome with it and without
    it, whether or not it already ends a line. *)
Theorem X12_final_newline_optional self problem content :
  _plan_from_file self problem (content ++ [NL]) =
  _plan_from_file self problem content.
Proof.
  destruct (decide (content = [])) as [-> | Hne].
  { unfold _plan_from_file. change (readlines ([] ++ [NL])) with [[NL]].
    change (readlines []) with (@nil text). cbn [parse_lines].
    rewrite parse_line_blank; [done|]. left. by repeat constructor. }
  destruct (exists_last Hne) as (c & a & ->). rewrite <- app_assoc. cbn [app].
  destruct (decide (a = NL)) as [-> | Hn].
  { unfold _plan_from_file. rewrite readlines_app, parse_lines_app.
    destruct (parse_lines self problem (readlines (c ++ [NL])) []) as [e|acts];
      [done|].
    change (readlines [NL]) with [[NL]]. cbn [parse_lines].
    rewrite parse_line_blank; [done|]. left. by repeat constructor. }
  destruct (decide (a = CR)) as [-> | Hc].
  { unfold _plan_from_file, readlines. by rewrite translate_newlines_CR_NL. }
  by apply plan_from_file_snoc_NL.
Qed.
End MoreParser.

(** * Further properties of the runner and of [solve] *)

Section MoreRunner.
Context {Action Object Exn LogLevel : Type}.
Context (TIMEOUT : Z) (INFO ERROR : LogLevel).
Context (decode : list Byte.byte -> Exn + text).
Context {init : @ActionInstanceInit Action Object Exn}.
Implicit Types (p : @process Exn) (w : @world Exn) (st : run_state).
Implicit Types (self : @Solver Action Object Exn).
Implicit Types (problem : @Problem Action Object Exn).

Local Abbreviation Solve' := (solve TIMEOUT INFO ERROR decode).
Local Abbreviation Run' := (run_command decode).
Local Abbreviation Drain := (drain decode).

Lemma drain_eof_at p start timeout os k : forall n st st' fuel,
  (forall i, i < k -> eof (cycles p (n + i)) = false /\
                      deadline timeout start (cycles p (n + i)) = false) ->
  eof (cycles p (n + k)) = true ->
  captured decode p os n k st = Some st' ->
  k < fuel ->
  Drain p start timeout os fuel n st = Some (st', inr false).
Proof.
  induction k as [|k IH]; intros n st st' fuel Hbefore Heof Hcap Hfuel;
    (destruct fuel as [|fuel]; [lia|]); simpl in *.
  - replace (n + 0) with n in * by lia. rewrite Heof. by injection Hcap as ->.
  - destruct (Hbefore 0 ltac:(lia)) as [He Hd].
    replace (n + 0) with n in * by lia. rewrite He.
    destruct (record_line _ _ false _ _ st) as [|st0]; [done|].
    destruct (record_line _ _ true _ _ st0) as [|st1]; [done|].
    rewrite Hd. apply IH; [| |done|lia].
    + intros i Hi. replace (S n + i) with (n + S i) by lia. apply Hbefore. lia.
    + by replace (S n + k) with (n + S k) by lia.
Qed.

(** X13. When the child closes both streams before any deadline test
    has succeeded, the runner ends at the first turn that sees the end
    of both: it does not look at the clock in that turn, calls
    [process.kill()] not at all, and returns the flag false with all
    that was recorded in the turns before and the exit code. *)
Theorem X13_end_of_streams w p cmd timeout os k st :
  spawn w cmd = inr p ->
  (forall i, i < k -> eof (cycles p i) = false /\
                      deadline timeout (start w) (cycles p i) = false) ->
  eof (cycles p k) = true ->
  captured decode p os 0 k init_state = Some st ->
  forall fuel, k < fuel ->
    run_command decode w fuel cmd timeout os
      = Some (st, inr (false, process_output st, returncode p)) /\
    kills st = 0.
Proof.
  intros Hspawn Hbefore Heof Hcap fuel Hfuel. split.
  - unfold run_command. rewrite Hspawn.
    by rewrite (drain_eof_at p (start w) timeout os k 0 init_state st fuel).
  - by rewrite (captured_kills decode _ _ _ _ _ _ Hcap).
Qed.

Lemma drain_kills p start timeout os fuel : forall n st st' out,
  Drain p start timeout os fuel n st = Some (st', out) ->
  kills st' = kills st + match out with inr true => 1 | _ => 0 end.
Proof.
  induction fuel as [|fuel IH]; intros n st st' out H; [done|]. simpl in H.
  destruct (eof (cycles p n)); [injection H as <- <-; lia|].
  destruct (record_line _ _ false _ _ st) as [|st0] eqn:E0;
    [injection H as <- <-; lia|].
  destruct (record_line _ _ true _ _ st0) as [|st1] eqn:E1.
  { injection H as <- <-. apply record_line_kills in E0. lia. }
  apply record_line_kills in E0, E1.
  destruct (deadline timeout start (cycles p n)).
  - injection H as <- <-. unfold kill. destruct (kill_raises p); simpl; lia.
  - apply IH in H. lia.
Qed.

Lemma run_command_kills w fuel cmd timeout os st out :
  Run' w fuel cmd timeout os = Some (st, out) ->
  kills st = match out with inr (true, _, _) => 1 | _ => 0 end.
Proof.
  unfold run_command. destruct (spawn w cmd) as [e|p]; [by intros [= <- <-]|].
  destruct (Drain p (start w) timeout os fuel 0 init_state)
    as [[st' [e|t]]|] eqn:E; [| |done]; intros [= <- <-];
    apply drain_kills in E; simpl in E; [lia|]. by destruct t.
Qed.

(** X14. [process.kill()] is called once when the runner returns with
    the flag true, and not at all otherwise, that is when it returns
    with the flag false and when it raises. *)
Theorem X14_kill_exactly_on_timeout w fuel cmd timeout os st out :
  run_command decode w fuel cmd timeout os = Some (st, out) ->
  kills st = match out with inr (true, _, _) => 1 | _ => 0 end.
Proof. apply run_command_kills. Qed.

Lemma drain_flag p start timeout os fuel : forall n st st',
  Drain p start timeout os fuel n st = Some (st', inr true) ->
  exists t k, timeout = Some t /\ n <= k /\ eof (cycles p k) = false /\
              (t <= now (cycles p k) - start)%Z.
Proof.
  induction fuel as [|fuel IH]; intros n st st' H; [done|]. simpl in H.
  destruct (eof (cycles p n)) eqn:He; [done|].
  destruct (record_line _ _ false _ _ st) as [|st0]; [done|].
  destruct (record_line _ _ true _ _ st0) as [|st1]; [done|].
  destruct (deadline timeout start (cycles p n)) eqn:Hd.
  - unfold deadline in Hd. destruct timeout as [t|]; [|done].
    exists t, n. split_and!; [done|lia|done|by apply Z.leb_le].
  - apply IH in H as (t & k & ? & ? & ? & ?). exists t, k. split_and!; [done|lia|done..].
Qed.

Lemma run_command_flag w fuel cmd timeout os st out rv :
  Run' w fuel cmd timeout os = Some (st, inr (true, out, rv)) ->
  exists p t k,
    spawn w cmd = inr p /\ timeout = Some t /\
    eof (cycles p k) = false /\ (t <= now (cycles p k) - start w)%Z.
Proof.
  unfold run_command. destruct (spawn w cmd) as [e|p]; [done|].
  destruct (Drain p (start w) timeout os fuel 0 init_state)
    as [[st' [e|t]]|] eqn:E; [done| |done].
  intros [= <- -> <- <-]. apply drain_flag in E as (t & k & ? & _ & ? & ?).
  by exists p, t, k.
Qed.

(** X15. The runner reports a timeout only when a timeout was given
    and the deadline test of some turn that did not see the end of both
    streams found the elapsed time at or above it. *)
Theorem X15_timeout_flag_sound w fuel cmd timeout os st out rv :
  run_command decode w fuel cmd timeout os = Some (st, inr (true, out, rv)) ->
  exists p t k,
    spawn w cmd = inr p /\ timeout = Some t /\
    eof (cycles p k) = false /\ (t <= now (cycles p k) - start w)%Z.
Proof. apply run_command_flag. Qed.

(** X16. Without a timeout the runner never kills the child and never
    reports a timeout, however long the child runs. *)
Theorem X16_no_timeout_no_kill w fuel cmd os st out :
  run_command decode w fuel cmd None os = Some (st, out) ->
  kills st = 0 /\ forall o rv, out <> inr (true, o, rv).
Proof.
  intros H.
  assert (forall o rv, out <> inr (true, o, rv)) as Hno.
  { intros o rv ->. by apply run_command_flag in H as (p & t & k & _ & Ht & _). }
  split; [|done].
  apply run_command_kills in H. destruct out as [e|[[[|] o] rv]]; [done| |done].
  by destruct (Hno o rv).
Qed.

Lemma interleave_snoc (out err : list text) a b :
  length out = length err ->
  interleave (out ++ [a]) (err ++ [b]) = interleave out err ++ [a; b].
Proof.
  revert err. induction out as [|x out IH]; intros [|y err] Hlen;
    simpl in *; try done.
  rewrite IH by lia. done.
Qed.

Lemma record_turn_balanced os line0 line1 wr0 wr1 st st0 st1 :
  record_line decode os false line0 wr0 st = inr st0 ->
  record_line decode os true line1 wr1 st0 = inr st1 ->
  balanced os st -> balanced os st1.
Proof.
  intros (c0 & _ & E0 & W0)%record_line_output (c1 & _ & E1 & W1)%record_line_output
         [Hlen Hw].
  unfold balanced. rewrite E1, E0, W1, W0. simpl. split.
  - rewrite !length_app. simpl. lia.
  - destruct os; [|done]. rewrite Hw, interleave_snoc by done.
    by rewrite <- app_assoc.
Qed.

Lemma drain_balanced p start timeout os fuel : forall n st st' t,
  Drain p start timeout os fuel n st = Some (st', inr t) ->
  balanced os st -> balanced os st'.
Proof.
  induction fuel as [|fuel IH]; intros n st st' t H Hb; [done|]. simpl in H.
  destruct (eof (cycles p n)); [by injection H as <- <-|].
  destruct (record_line _ _ false _ _ st) as [|st0] eqn:E0; [done|].
  destruct (record_line _ _ true _ _ st0) as [|st1] eqn:E1; [done|].
  pose proof (record_turn_balanced _ _ _ _ _ _ _ _ E0 E1 Hb) as Hb1.
  destruct (deadline timeout start (cycles p n)).
  - injection H as <- <-. unfold kill. by destruct (kill_raises p).
  - by eapply IH.
Qed.

(** X17. Whenever the runner returns, the two lists it returns have
    the same length, one chunk of each stream for every turn recorded,
    and the sink, when there is one, has received exactly these chunks:
    in each turn the one of standard output, then the one of standard
    error. Without a sink nothing is written. *)
Theorem X17_chunks_and_sink w fuel cmd timeout os st t out err rv :
  run_command decode w fuel cmd timeout os = Some (st, inr (t, (out, err), rv)) ->
  length out = length err /\
  written st = if os then interleave out err else [].
Proof.
  unfold run_command. destruct (spawn w cmd) as [e|p]; [done|].
  destruct (Drain p (start w) timeout os fuel 0 init_state)
    as [[st' [e|t']]|] eqn:E; [done| |done].
  intros [= <- <- Hout <-].
  apply drain_balanced in E; [|by destruct os].
  destruct E as [Hlen Hw]. rewrite Hout in Hlen, Hw. done.
Qed.

Lemma record_line_sink idx line wr st st' s :
  same_but_sink st st' ->
  record_line decode true idx line wr st = inr s ->
  exists s', record_line decode false idx line wr st' = inr s' /\
             same_but_sink s s'.
Proof.
  intros [Ho Hk]. unfold record_line. destruct (decode line) as [e|c]; [done|].
  destruct wr; [done|]. rewrite <- Ho.
  destruct (process_output st) as [out err]. intros [= <-].
  eexists. split; [done|]. split; simpl; [by destruct idx|done].
Qed.

Lemma drain_sink p start timeout fuel : forall n st st' s t,
  same_but_sink st st' ->
  Drain p start timeout true fuel n st = Some (s, inr t) ->
  exists s', Drain p start timeout false fuel n st' = Some (s', inr t) /\
             same_but_sink s s'.
Proof.
  induction fuel as [|fuel IH]; intros n st st' s t Hs H; [done|].
  simpl in *. destruct (eof (cycles p n)).
  { injection H as <- <-. by exists st'. }
  destruct (record_line _ true false _ _ st) as [e|st0] eqn:E0; [done|].
  destruct (record_line_sink _ _ _ _ _ _ Hs E0) as (st0' & -> & Hs0).
  destruct (record_line _ true true _ _ st0) as [e|st1] eqn:E1; [done|].
  destruct (record_line_sink _ _ _ _ _ _ Hs0 E1) as (st1' & -> & [Ho Hk]).
  destruct (deadline timeout start (cycles p n)); [|by eapply IH].
  injection H as <- <-. eexists. split; [done|]. unfold kill.
  destruct (kill_raises p); split; simpl; congruence.
Qed.

Lemma run_command_sink w fuel cmd timeout st r :
  Run' w fuel cmd timeout true = Some (st, inr r) ->
  exists st', Run' w fuel cmd timeout false = Some (st', inr r) /\
              same_but_sink st st'.
Proof.
  unfold run_command. destruct (spawn w cmd) as [e|p]; [done|].
  destruct (Drain p (start w) timeout true fuel 0 init_state)
    as [[s [e|t]]|] eqn:E; [done| |done].
  intros [= <- <-].
  destruct (drain_sink p (start w) timeout fuel 0 init_state init_state s t
              ltac:(by split) E) as (s' & -> & Hs).
  exists s'. split; [|done]. by destruct Hs as [<- _].
Qed.

(** X18. The sink is for display only: it takes no part in a result.
    Whatever the runner returns with a sink it returns without one,
    and so does [solve]. (The converse fails: a write to the sink that
    raises ends the run with a sink, and not the run without one.) *)
Theorem X18_sink_changes_no_result self w fuel problem timeout :
  (forall st r,
     run_command decode w fuel (command self w) timeout true = Some (st, inr r) ->
     outcome (run_command decode w fuel (command self w) timeout false)
     = Some (inr r)) /\
  (forall st r,
     solve TIMEOUT INFO ERROR decode self w fuel problem timeout true
     = Some (st, inr r) ->
     outcome (solve TIMEOUT INFO ERROR decode self w fuel problem timeout false)
     = Some (inr r)).
Proof.
  split.
  - intros st r (st' & -> & _)%run_command_sink. done.
  - intros st r (t & out & err & rv & pl & Hrun & Hplan & ->)
      %(solve_inv TIMEOUT INFO ERROR).
    apply run_command_sink in Hrun as (st' & Hrun & _).
    by rewrite (solve_returns TIMEOUT INFO ERROR decode _ _ _ _ _ _ _ _ _ _ _ _
                  Hrun Hplan).
Qed.

(** A write to the sink that raises ends the run there and then with
    that exception: the call is in no handler. *)
Lemma drain_write_error p start timeout k chunk e : forall n st st' fuel,
  (forall i, i < k -> eof (cycles p (n + i)) = false /\
                      deadline timeout start (cycles p (n + i)) = false) ->
  eof (cycles p (n + k)) = false ->
  captured decode p true n k st = Some st' ->
  decode (default [] (stdout_read (cycles p (n + k)))) = inr chunk ->
  stdout_write_raises (cycles p (n + k)) = Some e ->
  k < fuel ->
  Drain p start timeout true fuel n st = Some (st', inl (Foreign e)).
Proof.
  induction k as [|k IH]; intros n st st' fuel Hbefore Heof Hcap Hdec Hwr Hfuel;
    (destruct fuel as [|fuel]; [lia|]); simpl in *.
  - replace (n + 0) with n in * by lia. rewrite Heof. injection Hcap as ->.
    unfold record_line. by rewrite Hdec, Hwr.
  - destruct (Hbefore 0 ltac:(lia)) as [He Hd].
    replace (n + 0) with n in * by lia. rewrite He.
    destruct (record_line _ _ false _ _ st) as [|st0]; [done|].
    destruct (record_line _ _ true _ _ st0) as [|st1]; [done|].
    rewrite Hd. apply IH; [| |done| | |lia].
    + intros i Hi. replace (S n + i) with (n + S i) by lia. apply Hbefore. lia.
    + by replace (S n + k) with (n + S k) by lia.
    + by replace (S n + k) with (n + S k) by lia.
    + by replace (S n + k) with (n + S k) by lia.
Qed.



Lemma replace_crlf_CR_NL (s : text) :
  replace_crlf (CR :: NL :: s) = NL :: replace_crlf s.
Proof. reflexivity. Qed.

Lemma replace_crlf_cons (a b : ascii) (s : text) :
  Ascii.eqb a CR && Ascii.eqb b NL = false ->
  replace_crlf (a :: b :: s) = a :: replace_crlf (b :: s).
Proof.
  intros H.
  change (replace_crlf (a :: b :: s))
    with (if Ascii.eqb a CR && Ascii.eqb b NL then NL :: replace_crlf s
          else a :: replace_crlf (b :: s)).
  by rewrite H.
Qed.

Lemma without_CR_replace_crlf (s : text) :
  without_CR (replace_crlf s) = without_CR s.
Proof.
  remember (length s) as n eqn:En. revert s En.
  induction n as [n IH] using lt_wf_ind. intros s ->.
  destruct s as [|a [|b s]]; [done..|].
  destruct (Ascii.eqb a CR && Ascii.eqb b NL) eqn:E.
  - apply andb_true_iff in E as [->%Ascii.eqb_eq ->%Ascii.eqb_eq].
    rewrite replace_crlf_CR_NL.
    change (without_CR (NL :: replace_crlf s)) with (NL :: without_CR (replace_crlf s)).
    change (without_CR (CR :: NL :: s)) with (NL :: without_CR s).
    f_equal. apply (IH (length s)); [simpl; lia|done].
  - rewrite replace_crlf_cons by done.
    change (without_CR (a :: replace_crlf (b :: s)))
      with (if negb (Ascii.eqb a CR) then a :: without_CR (replace_crlf (b :: s))
            else without_CR (replace_crlf (b :: s))).
    change (without_CR (a :: b :: s))
      with (if negb (Ascii.eqb a CR) then a :: without_CR (b :: s)
            else without_CR (b :: s)).
    by rewrite (IH (length (b :: s)) ltac:(simpl; lia) (b :: s) eq_refl).
Qed.

(** X20. Replacing CR LF by LF in a chunk removes carriage returns
    and nothing else: every other character stays, in its place, and a
    chunk without carriage return is returned as it is. *)
Theorem X20_replace_crlf_drops_CR_only (s : text) :
  without_CR (replace_crlf s) = without_CR s /\
  (CR ∉ s -> replace_crlf s = s).
Proof.
  split; [apply without_CR_replace_crlf|].
  remember (length s) as n eqn:En. revert s En.
  induction n as [n IH] using lt_wf_ind. intros s -> Hs.
  destruct s as [|a [|b s]]; [done..|].
  apply not_elem_of_cons in Hs as [Ha Hs].
  assert (Ascii.eqb a CR = false) as Ea by (apply Ascii.eqb_neq; congruence).
  rewrite replace_crlf_cons by by rewrite Ea.
  f_equal. apply (IH (length (b :: s))); [simpl; lia|done..].
Qed.

(** X21. A result of [solve] carries a plan exactly when the plan
    file exists, and then the plan parsed from it, also when the status
    is [TIMEOUT]; without the file the plan is [None]. *)
Theorem X21_plan_iff_plan_file self w fuel problem timeout os st r :
  Solve' self w fuel problem timeout os = Some (st, inr r) ->
  match plan_file w with
  | None => plan r = None
  | Some content =>
      exists pl, _plan_from_file self problem content = inr pl /\ plan r = Some pl
  end.
Proof.
  intros (t & out & err & rv & pl & _ & Hplan & ->)%(solve_inv TIMEOUT INFO ERROR).
  unfold read_plan in Hplan. simpl.
  destruct (plan_file w) as [content|]; [|by injection Hplan as <-].
  destruct (_plan_from_file self problem content) as [e|pl']; [done|].
  injection Hplan as <-. by exists pl'.
Qed.

Lemma drain_decode_error p start timeout os k e : forall n st st' fuel,
  (forall i, i < k -> eof (cycles p (n + i)) = false /\
                      deadline timeout start (cycles p (n + i)) = false) ->
  eof (cycles p (n + k)) = false ->
  captured decode p os n k st = Some st' ->
  decode (default [] (stdout_read (cycles p (n + k)))) = inl e ->
  k < fuel ->
  Drain p start timeout os fuel n st = Some (st', inl (Foreign e)).
Proof.
  induction k as [|k IH]; intros n st st' fuel Hbefore Heof Hcap Hdec Hfuel;
    (destruct fuel as [|fuel]; [lia|]); simpl in *.
  - replace (n + 0) with n in * by lia. rewrite Heof. injection Hcap as ->.
    unfold record_line. by rewrite Hdec.
  - destruct (Hbefore 0 ltac:(lia)) as [He Hd].
    replace (n + 0) with n in * by lia. rewrite He.
    destruct (record_line _ _ false _ _ st) as [|st0]; [done|].
    destruct (record_line _ _ true _ _ st0) as [|st1]; [done|].
    rewrite Hd. apply IH; [| |done| |lia].
    + intros i Hi. replace (S n + i) with (n + S i) by lia. apply Hbefore. lia.
    + by replace (S n + k) with (n + S k) by lia.
    + by replace (S n + k) with (n + S k) by lia.
Qed.

(** X22. When a line of standard output cannot be decoded in a turn
    the loop reaches, the runner raises the decoding error there and
    then, and [solve] raises it too: there is no result, the plan file
    is not read, and the child is not killed. *)
Theorem X22_undecodable_output_raises self w p fuel problem timeout os k st e :
  spawn w (command self w) = inr p ->
  (forall i, i < k -> eof (cycles p i) = false /\
                      deadline timeout (start w) (cycles p i) = false) ->
  eof (cycles p k) = false ->
  captured decode p os 0 k init_state = Some st ->
  decode (default [] (stdout_read (cycles p k))) = inl e ->
  k < fuel ->
  run_command decode w fuel (command self w) timeout os
    = Some (st, inl (Foreign e)) /\
  Solve' self w fuel problem timeout os = Some (st, inl (Foreign e)) /\
  kills st = 0.
Proof.
  intros Hspawn Hbefore Heof Hcap Hdec Hfuel.
  assert (run_command decode w fuel (command self w) timeout os
          = Some (st, inl (Foreign e))) as Hrun.
  { unfold run_command. rewrite Hspawn.
    by rewrite (drain_decode_error p (start w) timeout os k e 0 init_state st fuel). }
  split_and!; [done| |].
  - unfold solve. by rewrite Hrun.
  - by rewrite (captured_kills decode _ _ _ _ _ _ Hcap).
Qed.
End MoreRunner.

(** * The further properties on the sample planner *)

Lemma X2_lookups_on_tokens_only_witness :
  action demo_problem (str "not a token") <> action demo_problem_other (str "not a token") /\
  _plan_from_file demo_solver demo_problem demo_plan_text
  = _plan_from_file demo_solver demo_problem_other demo_plan_text.
Proof.
  split; [discriminate|].
  apply (X2_lookups_on_tokens_only demo_solver demo_problem demo_problem_other).
  - intros t [_ Ht]. unfold demo_problem_other. simpl.
    case_bool_decide as E; [|done]. subst t. exfalso.
    assert (is_token_char " " = true) as H; [|discriminate H].
    eapply (proj1 (Forall_forall _ _) Ht). set_solver.
  - done.
Defined.

Lemma X3_unknown_action_witness :
  _plan_from_file demo_solver demo_problem
    (str "(move a b)" ++ [NL] ++ str "(fly a b)" ++ [NL])
  = inl (Foreign (str "fly")).
Proof.
  apply (X3_unknown_action demo_solver demo_problem _
           [str "(move a b)" ++ [NL]] (str "(fly a b)" ++ [NL]) []
           [mkActionInstance (str "move") [ObjectExp (str "a"); ObjectExp (str "b")]]
           (str "fly") [(str " ", str "a"); (str " ", str "b")] (str "fly")).
  - vm_compute. reflexivity.
  - vm_compute. reflexivity.
  - exists [], [], [], [NL].
    split_and!; try (by repeat constructor); reflexivity.
  - vm_compute. reflexivity.
Defined.

Lemma X4_unknown_object_witness :
  _plan_from_file demo_solver demo_problem (str "(move a c b)")
  = inl (Foreign (str "c")).
Proof.
  apply (X4_unknown_object demo_solver demo_problem _ [] (str "(move a c b)") [] []
           (str "move") [(str " ", str "a"); (str " ", str "c"); (str " ", str "b")]
           (str "move") [str "a"] (str "c") [str "b"] (str "c")).
  - vm_compute. reflexivity.
  - reflexivity.
  - exists [], [], [], [].
    split_and!; try (by repeat constructor); reflexivity.
  - vm_compute. reflexivity.
  - reflexivity.
  - constructor; [|constructor]. exists (str "a"). vm_compute. reflexivity.
  - vm_compute. reflexivity.
Defined.

Lemma X7_patterns_disjoint_witness :
  ~ (is_Some (re_match blank_re (str "; (move a b)")) /\
     is_Some (re_match action_re (str "; (move a b)"))).
Proof. apply (X7_patterns_disjoint (str "; (move a b)")). Defined.

Lemma X8_action_line_trimmed_witness :
  strip (str "  ( pick-up   ?x )  ") = str "( pick-up   ?x )" /\
  head (strip (str "  ( pick-up   ?x )  ")) = Some "(" /\
  last (strip (str "  ( pick-up   ?x )  ")) = Some ")".
Proof.
  split; [vm_compute; reflexivity|].
  apply (X8_action_line_trimmed demo_solver demo_problem (str "  ( pick-up   ?x )  ")
           (mkActionInstance (str "pick-up") [ObjectExp (str "?x")])).
  vm_compute. reflexivity.
Defined.

Lemma X9_line_ends_do_not_matter_witness :
  with_line_end [CR; NL] (str "(move a b)" ++ [NL] ++ str "(pick-up ?x)" ++ [NL])
  = str "(move a b)" ++ [CR; NL] ++ str "(pick-up ?x)" ++ [CR; NL] /\
  _plan_from_file demo_solver demo_problem
    (with_line_end [CR; NL] (str "(move a b)" ++ [NL] ++ str "(pick-up ?x)" ++ [NL]))
  = _plan_from_file demo_solver demo_problem
      (str "(move a b)" ++ [NL] ++ str "(pick-up ?x)" ++ [NL]) /\
  _plan_from_file demo_solver demo_problem
    (with_line_end [CR] (str "(move a b)" ++ [NL] ++ str "(pick-up ?x)" ++ [NL]))
  = _plan_from_file demo_solver demo_problem
      (str "(move a b)" ++ [NL] ++ str "(pick-up ?x)" ++ [NL]).
Proof.
  split; [vm_compute; reflexivity|].
  apply (X9_line_ends_do_not_matter demo_solver demo_problem
           (str "(move a b)" ++ [NL] ++ str "(pick-up ?x)" ++ [NL])).
  apply (bool_decide_unpack _). vm_compute. reflexivity.
Defined.

Lemma X10_one_action_per_line_witness :
  length (readlines demo_plan_text) = 4 /\
  length (actions demo_plan)
  = length (List.filter (fun l => negb (is_blank_or_comment l))
                        (readlines demo_plan_text)).
Proof.
  split; [vm_compute; reflexivity|].
  apply (X10_one_action_per_line demo_solver demo_problem demo_plan_text demo_plan).
  vm_compute. reflexivity.
Defined.

(** The child ends 100 ticks after the start, past the timeout of 5:
    the runner sees the end of both streams and reports no timeout. *)
Lemma X13_end_of_streams_witness :
  deadline (Some 5%Z) (start demo_world_late) (cycles demo_child_late 1) = true /\
  run_command demo_decode demo_world_late 10 (command demo_solver demo_world_late)
    (Some 5%Z) false
  = Some (demo_state_ok,
          inr (false, ([str "found a plan"], [str "warning"]), Some 0%Z)) /\
  kills demo_state_ok = 0.
Proof.
  split; [reflexivity|].
  apply (X13_end_of_streams demo_decode demo_world_late demo_child_late
           (command demo_solver demo_world_late) (Some 5%Z) false 1 demo_state_ok).
  - reflexivity.
  - intros i Hi. assert (i = 0) as -> by lia. split; reflexivity.
  - reflexivity.
  - vm_compute. reflexivity.
  - lia.
Defined.

Lemma X14_kill_exactly_on_timeout_witness :
  run_command demo_decode demo_world_slow 10 (command demo_solver demo_world_slow)
    (Some 2%Z) true
  = Some (mkRunState (process_output demo_state_slow) (written demo_state_slow) 1,
          inr (true, process_output demo_state_slow, Some (-9)%Z)) /\
  kills (mkRunState (process_output demo_state_slow) (written demo_state_slow) 1) = 1.
Proof.
  split; [vm_compute; reflexivity|].
  apply (X14_kill_exactly_on_timeout demo_decode demo_world_slow 10
           (command demo_solver demo_world_slow) (Some 2%Z) true _
           (inr (true, process_output demo_state_slow, Some (-9)%Z))).
  vm_compute. reflexivity.
Defined.

Lemma X15_timeout_flag_sound_witness :
  exists p t k,
    spawn demo_world_slow (command demo_solver demo_world_slow) = inr p /\
    Some 2%Z = Some t /\
    eof (cycles p k) = false /\ (t <= now (cycles p k) - start demo_world_slow)%Z.
Proof.
  apply (X15_timeout_flag_sound demo_decode demo_world_slow 10
           (command demo_solver demo_world_slow) (Some 2%Z) true
           (mkRunState (process_output demo_state_slow) (written demo_state_slow) 1)
           (process_output demo_state_slow) (Some (-9)%Z)).
  vm_compute. reflexivity.
Defined.

Lemma X16_no_timeout_no_kill_witness :
  kills demo_state_ok = 0 /\
  forall o rv,
    inr (false, ([str "found a plan"], [str "warning"]), Some 0%Z)
    <> (inr (true, o, rv) : @raised text + _).
Proof.
  apply (X16_no_timeout_no_kill demo_decode demo_world_ok 10
           (command demo_solver demo_world_ok) false demo_state_ok).
  vm_compute. reflexivity.
Defined.

Lemma X17_chunks_and_sink_witness :
  length [str "searching"; []] = length [([] : text); []] /\
  written (mkRunState (process_output demo_state_slow) (written demo_state_slow) 1)
  = interleave [str "searching"; []] [[]; []].
Proof.
  apply (X17_chunks_and_sink demo_decode demo_world_slow 10
           (command demo_solver demo_world_slow) (Some 2%Z) true _ true
           [str "searching"; []] [[]; []] (Some (-9)%Z)).
  vm_compute. reflexivity.
Defined.

(** With a sink the chunks are written, and the result is the one of
    the run without a sink. *)
Lemma X18_sink_changes_no_result_witness :
  written (mkRunState ([str "found a plan"], [str "warning"])
                      [str "found a plan"; str "warning"] 0)
  = [str "found a plan"; str "warning"] /\
  outcome (run_command demo_decode demo_world_ok 10
             (command demo_solver demo_world_ok) None false)
  = Some (inr (false, ([str "found a plan"], [str "warning"]), Some 0%Z)) /\
  outcome (demo_solve demo_world_ok 10 None false) = Some (inr demo_result_ok).
Proof.
  split; [reflexivity|].
  destruct (X18_sink_changes_no_result DEMO_TIMEOUT DEMO_INFO DEMO_ERROR demo_decode
              demo_solver demo_world_ok 10 demo_problem None) as [H1 H2].
  split.
  - apply (H1 (mkRunState ([str "found a plan"], [str "warning"])
                          [str "found a plan"; str "warning"] 0)).
    vm_compute. reflexivity.
  - apply (H2 (mkRunState ([str "found a plan"], [str "warning"])
                          [str "found a plan"; str "warning"] 0)).
    vm_compute. reflexivity.
Defined.

(** A sink that is closed: the first write raises, the run with the
    sink ends with that exception and the run without it returns. *)
Lemma closed_sink_raises :
  run_command demo_decode demo_world_closed_sink 10
    (command demo_solver demo_world_closed_sink) None true
  = Some (init_state, inl (Foreign (str "ValueError"))) /\
  demo_solve demo_world_closed_sink 10 None true
  = Some (init_state, inl (Foreign (str "ValueError"))) /\
  demo_solve demo_world_closed_sink 10 None false
  = Some (demo_state_ok, inr demo_result_ok).
Proof. split_and!; vm_compute; reflexivity. Qed.


Lemma X20_replace_crlf_drops_CR_only_witness :
  replace_crlf (str "found a plan" ++ [CR; NL]) = str "found a plan" ++ [NL] /\
  without_CR (replace_crlf (str "found a plan" ++ [CR; NL]))
  = without_CR (str "found a plan" ++ [CR; NL]).
Proof.
  split; [vm_compute; reflexivity|].
  apply (X20_replace_crlf_drops_CR_only (str "found a plan" ++ [CR; NL])).
Defined.

Lemma X21_plan_iff_plan_file_witness :
  plan_file demo_world_ok = Some demo_plan_text /\
  exists pl,
    _plan_from_file demo_solver demo_problem demo_plan_text = inr pl /\
    plan demo_result_ok = Some pl.
Proof.
  split; [reflexivity|].
  apply (X21_plan_iff_plan_file DEMO_TIMEOUT DEMO_INFO DEMO_ERROR demo_decode
           demo_solver demo_world_ok 10 demo_problem None false demo_state_ok
           demo_result_ok).
  vm_compute. reflexivity.
Defined.

Lemma X22_undecodable_output_raises_witness :
  run_command demo_decode_strict demo_world_garbled 10
    (command demo_solver demo_world_garbled) None false
    = Some (mkRunState ([str "searching"], [[]]) [] 0,
            inl (Foreign (str "UnicodeDecodeError"))) /\
  solve DEMO_TIMEOUT DEMO_INFO DEMO_ERROR demo_decode_strict demo_solver
        demo_world_garbled 10 demo_problem None false
    = Some (mkRunState ([str "searching"], [[]]) [] 0,
            inl (Foreign (str "UnicodeDecodeError"))) /\
  kills (mkRunState ([str "searching"], [[]]) [] 0) = 0.
Proof.
  apply (X22_undecodable_output_raises DEMO_TIMEOUT DEMO_INFO DEMO_ERROR
           demo_decode_strict demo_solver demo_world_garbled demo_child_garbled 10
           demo_problem None false 1).
  - reflexivity.
  - intros i Hi. assert (i = 0) as -> by lia. split; reflexivity.
  - reflexivity.
  - vm_compute. reflexivity.
  - vm_compute. reflexivity.
  - lia.
Defined.
